(** * Control-Theory-Simulation: the recursive second-order filter

    A shallow embedding of the class [RecursiveConvolution], which the
    repository defines twice (in [RecursiveConvolution.py] and in [cart.py]),
    and the properties of its two methods [update_parameters] and
    [calculate_output].

    Numbers.  Python floats are idealised as real numbers: rounding and
    underflow are not represented, and a call whose floating-point
    evaluation would carry an infinity or a NaN as a value is outside the
    model.  The exceptions that the arithmetic of the two methods can raise
    are represented: [ZeroDivisionError] of [/], [ValueError] of
    [math.sqrt] on a negative argument, [TypeError] of arithmetic on [None]
    and, when the model is run with the range of a double ([Double]), the
    [OverflowError] that [math.exp] and [**] raise when their exact result
    is so large that it rounds to infinity, and the [ValueError] that
    [math.cos] and [math.sin] raise when their argument has overflowed to
    infinity.  With [Ideal] no operation overflows.

    Objects.  An instance is the record of its attributes.  A method is a
    function from the attributes before the call to the outcome of the call
    (a returned value or a raised exception) and the attributes after it:
    an exception does not undo the assignments made before it was raised. *)

From Stdlib Require Import ZArith Reals Lra Lia List String.
Import ListNotations.
Open Scope R_scope.

(** ** Outcomes of a call *)

Inductive exn : Type :=
  | ValueError (msg : string)
  | TypeError
  | ZeroDivisionError
  | OverflowError.

(** The message of [math.sqrt] on a negative argument. *)
Definition math_domain_error : string := "math domain error".

(** The message of [calculate_output] before any [update_parameters]. *)
Definition not_initialized : string :=
  "System parameters not initialized. Call 'update_parameters' first.".

Inductive result (A : Type) : Type :=
  | Return (a : A)
  | Raise (e : exn).

Arguments Return {A} a.
Arguments Raise {A} e.

Definition returns {A : Type} (r : result A) : Prop :=
  exists a, r = Return a.

Definition raises {A : Type} (r : result A) : Prop :=
  exists e, r = Raise e.

(** ** Arithmetic of the interpreter *)

Inductive floats : Type :=
  | Ideal
  | Double.

(** The least real that rounds to infinity in binary64 (round to nearest):
    one half unit in the last place above the largest double. *)
Definition DBL_OVERFLOW : R := IZR (2 ^ 1024 - 2 ^ 970).

Definition overflows (fm : floats) (v : R) : bool :=
  match fm with
  | Ideal => false
  | Double => if Rle_dec DBL_OVERFLOW (Rabs v) then true else false
  end.

(** [x / y] *)
Definition py_truediv (x y : R) : result R :=
  if Req_dec_T y 0 then Raise ZeroDivisionError else Return (x / y).

(** [x ** n] for a literal [n] *)
Definition py_pow (fm : floats) (x : R) (n : nat) : result R :=
  if overflows fm (x ^ n) then Raise OverflowError else Return (x ^ n).

(** [max(x, y)]: the second argument replaces the first only when it is
    strictly greater. *)
Definition py_max (x y : R) : R :=
  if Rlt_dec x y then y else x.

(** [math.sqrt(x)] *)
Definition math_sqrt (x : R) : result R :=
  if Rlt_dec x 0 then Raise (ValueError math_domain_error)
  else Return (sqrt x).

(** [math.exp(x)] *)
Definition math_exp (fm : floats) (x : R) : result R :=
  if overflows fm (exp x) then Raise OverflowError else Return (exp x).

(** [math.cos(x)] and [math.sin(x)]: an argument that has overflowed to
    infinity is outside their domain. *)
Definition math_cos (fm : floats) (x : R) : result R :=
  if overflows fm x then Raise (ValueError math_domain_error)
  else Return (cos x).

Definition math_sin (fm : floats) (x : R) : result R :=
  if overflows fm x then Raise (ValueError math_domain_error)
  else Return (sin x).

(** ** Instances *)

(** The attributes that [__init__] creates; [None] is [None]. *)
Record attrs : Type := mk_attrs {
  g0 : option R;
  g1 : option R;
  g2 : option R;
  alpha : option R;
  omega : option R;
  prev_y1 : R;
  prev_y2 : R;
  prev_x : R;
  dt : option R
}.

Definition set_g0 (v : R) (s : attrs) : attrs :=
  mk_attrs (Some v) (g1 s) (g2 s) (alpha s) (omega s)
           (prev_y1 s) (prev_y2 s) (prev_x s) (dt s).

Definition set_g1 (v : R) (s : attrs) : attrs :=
  mk_attrs (g0 s) (Some v) (g2 s) (alpha s) (omega s)
           (prev_y1 s) (prev_y2 s) (prev_x s) (dt s).

Definition set_alpha (v : R) (s : attrs) : attrs :=
  mk_attrs (g0 s) (g1 s) (g2 s) (Some v) (omega s)
           (prev_y1 s) (prev_y2 s) (prev_x s) (dt s).

Definition set_omega (v : R) (s : attrs) : attrs :=
  mk_attrs (g0 s) (g1 s) (g2 s) (alpha s) (Some v)
           (prev_y1 s) (prev_y2 s) (prev_x s) (dt s).

Definition set_prev_y1 (v : R) (s : attrs) : attrs :=
  mk_attrs (g0 s) (g1 s) (g2 s) (alpha s) (omega s)
           v (prev_y2 s) (prev_x s) (dt s).

Definition set_prev_y2 (v : R) (s : attrs) : attrs :=
  mk_attrs (g0 s) (g1 s) (g2 s) (alpha s) (omega s)
           (prev_y1 s) v (prev_x s) (dt s).

Definition set_prev_x (v : R) (s : attrs) : attrs :=
  mk_attrs (g0 s) (g1 s) (g2 s) (alpha s) (omega s)
           (prev_y1 s) (prev_y2 s) v (dt s).

Definition set_dt (v : R) (s : attrs) : attrs :=
  mk_attrs (g0 s) (g1 s) (g2 s) (alpha s) (omega s)
           (prev_y1 s) (prev_y2 s) (prev_x s) (Some v).

(** ** Method bodies: state and exceptions *)

Definition Py (A : Type) : Type := attrs -> result A * attrs.

Definition ret {A : Type} (a : A) : Py A :=
  fun s => (Return a, s).

Definition throw {A : Type} (e : exn) : Py A :=
  fun s => (Raise e, s).

Definition bind {A B : Type} (m : Py A) (f : A -> Py B) : Py B :=
  fun s =>
    match m s with
    | (Return a, s') => f a s'
    | (Raise e, s') => (Raise e, s')
    end.

Declare Scope py_scope.
Delimit Scope py_scope with py.
Notation "x <- m ;; k" := (bind m (fun x => k))
  (at level 61, m at next level, right associativity) : py_scope.
Notation "m ;; k" := (bind m (fun _ => k))
  (at level 61, right associativity) : py_scope.

(** The value of an operation of the interpreter, inside a method. *)
Definition lift {A : Type} (r : result A) : Py A :=
  fun s => (r, s).

(** [self.f] *)
Definition attr {A : Type} (f : attrs -> A) : Py A :=
  fun s => (Return (f s), s).

(** [self.f] as an operand of arithmetic: [None] is not a number. *)
Definition num (f : attrs -> option R) : Py R :=
  fun s =>
    match f s with
    | Some v => (Return v, s)
    | None => (Raise TypeError, s)
    end.

(** [self.f = v] *)
Definition assign (set : R -> attrs -> attrs) (v : R) : Py unit :=
  fun s => (Return tt, set v s).

Definition is_None {A : Type} (o : option A) : bool :=
  match o with
  | None => true
  | Some _ => false
  end.

Open Scope py_scope.

(** ** The class of [RecursiveConvolution.py] *)

Module RecursiveConvolution.

(** [__init__]: the attributes of a new instance. *)
Definition __init__ : attrs :=
  mk_attrs None None None None None 0 0 0 None.

Definition update_parameters (fm : floats) (b m k dt : R) : Py unit :=
  a <- lift (py_truediv b (2 * m)) ;;
  assign set_alpha a ;;
  km <- lift (py_truediv k m) ;;
  a <- num alpha ;;
  a2 <- lift (py_pow fm a 2) ;;
  w <- lift (math_sqrt (py_max 0 (km - a2))) ;;
  assign set_omega w ;;
  bm <- lift (py_truediv b m) ;;
  assign set_g0 bm ;;
  bm <- lift (py_truediv b m) ;;
  a <- num alpha ;;
  e1 <- lift (math_exp fm (- a * dt)) ;;
  w <- num omega ;;
  c <- lift (math_cos fm (w * dt)) ;;
  b2 <- lift (py_pow fm b 2) ;;
  q <- lift (py_truediv b2 (2 * m)) ;;
  w <- num omega ;;
  coef <- lift (py_truediv (k - q) (m * w)) ;;
  a <- num alpha ;;
  e2 <- lift (math_exp fm (- a * dt)) ;;
  w <- num omega ;;
  sn <- lift (math_sin fm (w * dt)) ;;
  assign set_g1 (bm * e1 * c + coef * e2 * sn) ;;
  assign set_dt dt.

Definition calculate_output (fm : floats) (x : R) : Py R :=
  g1_ <- attr g1 ;;
  dt_ <- attr dt ;;
  if (is_None g1_ || is_None dt_)%bool then
    throw (ValueError not_initialized)
  else
    a <- num alpha ;;
    T <- num dt ;;
    exp_neg_alpha_dt <- lift (math_exp fm (- a * T)) ;;
    w <- num omega ;;
    T <- num dt ;;
    cos_term <- lift (math_cos fm (w * T)) ;;
    a <- num alpha ;;
    T <- num dt ;;
    exp_neg_2alpha_dt <- lift (math_exp fm (-2 * a * T)) ;;
    y1 <- attr prev_y1 ;;
    y2 <- attr prev_y2 ;;
    T <- num dt ;;
    g0_ <- num g0 ;;
    T' <- num dt ;;
    g1_ <- num g1 ;;
    g0' <- num g0 ;;
    x1 <- attr prev_x ;;
    let y :=
      2 * exp_neg_alpha_dt * cos_term * y1 -
      exp_neg_2alpha_dt * y2 +
      T * g0_ * x +
      T' * (g1_ - 2 * exp_neg_alpha_dt * g0' * cos_term) * x1 in
    y1 <- attr prev_y1 ;;
    assign set_prev_y2 y1 ;;
    assign set_prev_y1 y ;;
    assign set_prev_x x ;;
    ret y.

End RecursiveConvolution.

(** ** The class of [cart.py], and the instance the module creates *)

Module cart.


(** [__init__]: the attributes of a new instance. *)
Definition __init__ : attrs :=
  mk_attrs None None None None None 0 0 0 None.

Definition update_parameters (fm : floats) (b m k dt : R) : Py unit :=
  a <- lift (py_truediv b (2 * m)) ;;
  assign set_alpha a ;;
  km <- lift (py_truediv k m) ;;
  a <- num alpha ;;
  a2 <- lift (py_pow fm a 2) ;;
  w <- lift (math_sqrt (py_max 0 (km - a2))) ;;
  assign set_omega w ;;
  bm <- lift (py_truediv b m) ;;
  assign set_g0 bm ;;
  bm <- lift (py_truediv b m) ;;
  a <- num alpha ;;
  e1 <- lift (math_exp fm (- a * dt)) ;;
  w <- num omega ;;
  c <- lift (math_cos fm (w * dt)) ;;
  b2 <- lift (py_pow fm b 2) ;;
  q <- lift (py_truediv b2 (2 * m)) ;;
  w <- num omega ;;
  coef <- lift (py_truediv (k - q) (m * w)) ;;
  a <- num alpha ;;
  e2 <- lift (math_exp fm (- a * dt)) ;;
  w <- num omega ;;
  sn <- lift (math_sin fm (w * dt)) ;;
  assign set_g1 (bm * e1 * c + coef * e2 * sn) ;;
  assign set_dt dt.

Definition calculate_output (fm : floats) (x : R) : Py R :=
  g1_ <- attr g1 ;;
  dt_ <- attr dt ;;
  if (is_None g1_ || is_None dt_)%bool then
    throw (ValueError not_initialized)
  else
    a <- num alpha ;;
    T <- num dt ;;
    exp_neg_alpha_dt <- lift (math_exp fm (- a * T)) ;;
    w <- num omega ;;
    T <- num dt ;;
    cos_term <- lift (math_cos fm (w * T)) ;;
    a <- num alpha ;;
    T <- num dt ;;
    exp_neg_2alpha_dt <- lift (math_exp fm (-2 * a * T)) ;;
    y1 <- attr prev_y1 ;;
    y2 <- attr prev_y2 ;;
    T <- num dt ;;
    g0_ <- num g0 ;;
    T' <- num dt ;;
    g1_ <- num g1 ;;
    g0' <- num g0 ;;
    x1 <- attr prev_x ;;
    let y :=
      2 * exp_neg_alpha_dt * cos_term * y1 -
      exp_neg_2alpha_dt * y2 +
      T * g0_ * x +
      T' * (g1_ - 2 * exp_neg_alpha_dt * g0' * cos_term) * x1 in
    y1 <- attr prev_y1 ;;
    assign set_prev_y2 y1 ;;
    assign set_prev_y1 y ;;
    assign set_prev_x x ;;
    ret y.


(** [conv = RecursiveConvolution()] followed by
    [conv.update_parameters(b=185, m=500, k=1500, dt=1/60)] *)
Definition conv (fm : floats) : attrs :=
  snd (update_parameters fm 185 500 1500 (1 / 60) __init__).

End cart.

(** ** Life of an instance *)

(** The two states of the filter: [Ready] once a call of
    [update_parameters] has returned. *)
Inductive lifecycle : Type :=
  | Uninitialized
  | Ready.

(** The attribute records an instance can hold, with its place in the
    life cycle.  A call that raises leaves the instance with the
    assignments made before the exception. *)
Inductive reach (fm : floats) : lifecycle -> attrs -> Prop :=
  | reach_new :
      reach fm Uninitialized RecursiveConvolution.__init__
  | reach_update_ok l s b m k T s' :
      reach fm l s ->
      RecursiveConvolution.update_parameters fm b m k T s = (Return tt, s') ->
      reach fm Ready s'
  | reach_update_raise l s b m k T e s' :
      reach fm l s ->
      RecursiveConvolution.update_parameters fm b m k T s = (Raise e, s') ->
      reach fm l s'
  | reach_advance l s x :
      reach fm l s ->
      reach fm l (snd (RecursiveConvolution.calculate_output fm x s)).

(** All five derived attributes hold numbers. *)
Definition ready (s : attrs) : Prop :=
  exists a w p q T,
    alpha s = Some a /\ omega s = Some w /\
    g0 s = Some p /\ g1 s = Some q /\ dt s = Some T.

(** The instance after a sequence of [calculate_output] calls. *)
Definition advances (fm : floats) (xs : list R) (s : attrs) : attrs :=
  fold_left (fun s x => snd (RecursiveConvolution.calculate_output fm x s)) xs s.

(** The history shift of one sample. *)
Definition shift (x y : R) (s : attrs) : attrs :=
  mk_attrs (g0 s) (g1 s) (g2 s) (alpha s) (omega s)
           y (prev_y1 s) x (dt s).

(** ** The formulas of the specification *)

(** The derived parameters and the recursion as the specification writes
    them, with its names.  Nothing below is computed with these: the
    theorems compare them with what the code stores and returns. *)
Module Spec.

Definition decayRate (damping mass : R) : R :=
  damping / (2 * mass).

Definition naturalFrequency (damping mass stiffness : R) : R :=
  sqrt (Rmax 0 (stiffness / mass - (decayRate damping mass)²)).

Definition gain0 (damping mass : R) : R :=
  damping / mass.

Definition gain1 (damping mass stiffness samplePeriod : R) : R :=
  let a := decayRate damping mass in
  let w := naturalFrequency damping mass stiffness in
  gain0 damping mass * exp (- (a * samplePeriod)) * cos (w * samplePeriod) +
  ((stiffness - damping² / (2 * mass)) / (mass * w)) *
    exp (- (a * samplePeriod)) * sin (w * samplePeriod).

Definition advance (a w p q samplePeriod prevOutput1 prevOutput2 prevInput x : R)
  : R :=
  let decay := exp (- (a * samplePeriod)) in
  let cosTerm := cos (w * samplePeriod) in
  let decay2 := exp (- (2 * a * samplePeriod)) in
  2 * decay * cosTerm * prevOutput1 - decay2 * prevOutput2 +
  samplePeriod * p * x +
  samplePeriod * (q - 2 * decay * p * cosTerm) * prevInput.

End Spec.

(** ** Instances used as examples *)

(** The instance of [RecursiveConvolution.py]'s own run:
    [b, m, k, dt = 1, 1, 10, 0.001]. *)
Definition demo (fm : floats) : attrs :=
  snd (RecursiveConvolution.update_parameters fm 1 1 10 (1 / 1000)
         RecursiveConvolution.__init__).

(** An overdamped system ([b² > 4·m·k]) at 60 samples per second. *)
Definition overdamped (fm : floats) : Py unit :=
  RecursiveConvolution.update_parameters fm 4 1 1 (1 / 60).

(** A system with negative damping: [alpha = -600], [omega = 1000]. *)
Definition growing (fm : floats) : attrs :=
  snd (RecursiveConvolution.update_parameters fm (-1200) 1 1360000 1
         RecursiveConvolution.__init__).

(** ** The two methods with their control flow written out *)

(** The attributes after a call of [update_parameters] that returns, with
    the code's own grouping of the arithmetic. *)
Definition updated (b m k T : R) (s : attrs) : attrs :=
  let a := b / (2 * m) in
  let w := sqrt (py_max 0 (k / m - a ^ 2)) in
  let q :=
    b / m * exp (- a * T) * cos (w * T) +
    (k - b ^ 2 / (2 * m)) / (m * w) * exp (- a * T) * sin (w * T) in
  mk_attrs (Some (b / m)) (Some q) (g2 s) (Some a) (Some w)
           (prev_y1 s) (prev_y2 s) (prev_x s) (Some T).

(** The attributes when [update_parameters] raises after the assignment of
    [self.g0]: [alpha], [omega] and [g0] are new, [g1] and [dt] are not. *)
Definition half_updated (b m k : R) (s : attrs) : attrs :=
  let a := b / (2 * m) in
  let w := sqrt (py_max 0 (k / m - a ^ 2)) in
  set_g0 (b / m) (set_omega w (set_alpha a s)).

Definition update_parameters_flat (fm : floats) (b m k T : R) (s : attrs)
  : result unit * attrs :=
  let a := b / (2 * m) in
  let w := sqrt (py_max 0 (k / m - a ^ 2)) in
  if Req_dec_T m 0 then (Raise ZeroDivisionError, s)
  else if overflows fm (a ^ 2) then (Raise OverflowError, set_alpha a s)
  else if overflows fm (exp (- a * T)) then
    (Raise OverflowError, half_updated b m k s)
  else if overflows fm (w * T) then
    (Raise (ValueError math_domain_error), half_updated b m k s)
  else if overflows fm (b ^ 2) then
    (Raise OverflowError, half_updated b m k s)
  else if Req_dec_T w 0 then (Raise ZeroDivisionError, half_updated b m k s)
  else (Return tt, updated b m k T s).

(** The value [y] of [calculate_output], with the code's own grouping. *)
Definition output (a w p q T y1 y2 x1 x : R) : R :=
  2 * exp (- a * T) * cos (w * T) * y1 -
  exp (-2 * a * T) * y2 +
  T * p * x +
  T * (q - 2 * exp (- a * T) * p * cos (w * T)) * x1.

Definition calculate_output_flat (fm : floats) (x : R) (s : attrs)
  : result R * attrs :=
  match g1 s, dt s with
  | Some q, Some T =>
      match alpha s with
      | None => (Raise TypeError, s)
      | Some a =>
          if overflows fm (exp (- a * T)) then (Raise OverflowError, s)
          else
            match omega s with
            | None => (Raise TypeError, s)
            | Some w =>
                if overflows fm (w * T) then
                  (Raise (ValueError math_domain_error), s)
                else if overflows fm (exp (-2 * a * T)) then
                  (Raise OverflowError, s)
                else
                  match g0 s with
                  | None => (Raise TypeError, s)
                  | Some p =>
                      let y :=
                        output a w p q T (prev_y1 s) (prev_y2 s) (prev_x s) x in
                      (Return y, shift x y s)
                  end
            end
      end
  | _, _ => (Raise (ValueError not_initialized), s)
  end.

(** The two exponentials of [calculate_output] and the argument of its
    cosine are within the range of the arithmetic. *)
Definition in_range (fm : floats) (s : attrs) : Prop :=
  forall a w T,
    alpha s = Some a -> omega s = Some w -> dt s = Some T ->
    overflows fm (exp (- a * T)) = false /\
    overflows fm (w * T) = false /\
    overflows fm (exp (-2 * a * T)) = false.

(** * The rest of the two files

    ** The driver of [RecursiveConvolution.py] *)

(** [for x in unit_step_input:
       y = conv.calculate_output(x)
       unit_step_output.append(y)] *)
Fixpoint for_each (fm : floats) (unit_step_input unit_step_output : list R)
  : Py (list R) :=
  match unit_step_input with
  | [] => ret unit_step_output
  | x :: rest =>
      y <- RecursiveConvolution.calculate_output fm x ;;
      for_each fm rest (unit_step_output ++ [y])
  end.

(** [range(n)] for a natural number [n] *)
Definition range (n : nat) : list nat := seq 0 n.

(** The block under [if __name__ == "__main__"], up to the plot: the
    lists [time_points] and [unit_step_output] that are handed to
    [plt.plot].  The script fixes [b, m, k, dt = 1, 1, 10, 0.001] and
    [num_points = 10000]; they are arguments here. *)
Definition main (fm : floats) (b m k dt : R) (num_points : nat)
  : Py (list R * list R) :=
  RecursiveConvolution.update_parameters fm b m k dt ;;
  let time_points := map (fun n => INR n * dt) (range num_points) in
  let unit_step_input := map (fun _ => 1) (range num_points) in
  unit_step_output <- for_each fm unit_step_input [] ;;
  ret (time_points, unit_step_output).

(** ** [pygame.Vector2], as far as [cart.py] uses it

    A vector is copied wherever the code stores one ([pygame.Vector2(v)],
    [u + v], [u - v]), and the one vector the code changes in place,
    [Cart.pos], has no alias; vectors are therefore values here. *)
Module Vector2.

Record t : Type := mk { x : R; y : R }.

Definition add (u v : t) : t := mk (x u + x v) (y u + y v).

Definition sub (u v : t) : t := mk (x u - x v) (y u - y v).

(** [u * c] for a number [c] *)
Definition scale (u : t) (c : R) : t := mk (x u * c) (y u * c).

Definition length (u : t) : R := sqrt (x u * x u + y u * y u).

Definition normalize_error : string :=
  "Can't normalize Vector of length Zero".

(** [u.normalize_ip()], returning the vector [u] has become *)
Definition normalize_ip (u : t) : result t :=
  if Req_dec_T (length u) 0 then Raise (ValueError normalize_error)
  else Return (mk (x u / length u) (y u / length u)).

End Vector2.

(** [int(r)] of a float: truncation towards zero. *)
Definition py_int (r : R) : Z :=
  if Rle_dec 0 r then Int_part r else (- Int_part (- r))%Z.

(** Sequencing of operations that may raise, outside a method of the
    filter. *)
Definition and_then {A B : Type} (r : result A) (f : A -> result B)
  : result B :=
  match r with
  | Return a => f a
  | Raise e => Raise e
  end.

(** ** [ConnectionPoint]

    [parent] is always the object that creates the point, and is never
    assigned again: the methods take the parent's current [pos]. *)
Module ConnectionPoint.

Record t : Type := mk {
  offset : Vector2.t;
  pos : Vector2.t;
  displacement : Vector2.t
}.

Definition __init__ (parent_pos offset : Vector2.t) : t :=
  mk offset (Vector2.add parent_pos offset) (Vector2.mk 0 0).

Definition update (parent_pos : Vector2.t) (self : t) : t :=
  let new_pos := Vector2.add parent_pos (offset self) in
  mk (offset self) new_pos (Vector2.sub new_pos (pos self)).

End ConnectionPoint.

(** ** [Cart] *)
Module Cart.

Record t : Type := mk {
  pos : Vector2.t;
  width : R;
  height : R;
  color : Z * Z * Z;
  spring_connection : ConnectionPoint.t;
  connector_connection : ConnectionPoint.t
}.

Definition __init__ (pos : Vector2.t) (width height : R) (color : Z * Z * Z)
    (spring_offset connector_offset : Vector2.t) : t :=
  mk pos width height color
     (ConnectionPoint.__init__ pos spring_offset)
     (ConnectionPoint.__init__ pos connector_offset).

(** [self.pos += displacement], then both connection points are updated. *)
Definition update (displacement : Vector2.t) (self : t) : t :=
  let p := Vector2.add (pos self) displacement in
  mk p (width self) (height self) (color self)
     (ConnectionPoint.update p (spring_connection self))
     (ConnectionPoint.update p (connector_connection self)).

(** [cart.pos = p] and [cart.pos.x = v], as the main loop does them. *)
Definition set_pos (p : Vector2.t) (self : t) : t :=
  mk p (width self) (height self) (color self)
     (spring_connection self) (connector_connection self).

End Cart.

(** ** [Spring]

    [pointA] and [pointB] are references to connection points of the two
    carts; [draw] takes their current positions.  Its value is what it
    hands to [pygame.draw.lines]: [None] when it returns before drawing. *)
Module Spring.

Record t : Type := mk {
  num_coils : Z;
  amplitude : R
}.

(** The body of the loop: the point for index [i]. *)
Definition point (fm : floats) (self : t) (start direction perp : Vector2.t)
    (length : R) (num_points i : Z) : result Vector2.t :=
  and_then (py_truediv (IZR i) (IZR num_points)) (fun t =>
  and_then (math_sin fm (t * IZR (num_coils self) * PI * 2)) (fun sn =>
  let offset := sn * amplitude self * (1 - Rabs (t - 1 / 2) * 2) in
  Return (Vector2.add
            (Vector2.add start (Vector2.scale direction (t * length)))
            (Vector2.scale perp offset)))).

Fixpoint loop (fm : floats) (self : t) (start direction perp : Vector2.t)
    (length : R) (num_points : Z) (indices : list Z) (points : list (Z * Z))
  : result (list (Z * Z)) :=
  match indices with
  | [] => Return points
  | i :: rest =>
      and_then (point fm self start direction perp length num_points i)
        (fun p =>
           loop fm self start direction perp length num_points rest
             (points ++ [(py_int (Vector2.x p), py_int (Vector2.y p))]))
  end.

(** [range(n)] for an integer [n]: empty when [n <= 0]. *)
Definition range (n : Z) : list Z := map Z.of_nat (seq 0 (Z.to_nat n)).

Definition draw (fm : floats) (self : t) (pointA_pos pointB_pos : Vector2.t)
  : result (option (list (Z * Z))) :=
  let start := pointA_pos in
  let end_ := pointB_pos in
  let direction := Vector2.sub end_ start in
  let length := Vector2.length direction in
  if Req_dec_T length 0 then Return None
  else
    and_then (Vector2.normalize_ip direction) (fun direction =>
    let perp := Vector2.mk (- Vector2.y direction) (Vector2.x direction) in
    let num_points := (num_coils self * 20)%Z in
    and_then (loop fm self start direction perp length num_points
                (range (num_points + 1)) [])
      (fun points => Return (Some points))).

End Spring.

(** ** [ConnectorBox] *)

(** The dictionaries [outer_cart_config] and [inner_cart_config]. *)
Record cart_config_t : Type := mk_cart_config {
  cfg_pos : Vector2.t;
  cfg_width : R;
  cfg_height : R;
  cfg_color : Z * Z * Z;
  cfg_spring_contact_offset : Vector2.t;
  cfg_connector_contact_offset : Vector2.t
}.

(** The dictionary [connector_box_config].  The last three keys are the
    ones [ConnectorBox.__init__] reads with [.get(key, default)]: [None]
    stands for a missing key. *)
Record connector_box_config_t : Type := mk_connector_box_config {
  cfg_box_pos : Vector2.t;
  cfg_box_width : R;
  cfg_box_height : R;
  cfg_box_color : Z * Z * Z;
  cfg_contact_offset_outer : Vector2.t;
  cfg_contact_offset_inner : Vector2.t;
  cfg_fixed_leg_length : R;
  cfg_contact_y_proportion : option R;
  cfg_indicator_color : option (Z * Z * Z);
  cfg_indicator_size : option (R * R)
}.

(** [d.get(key, default)] *)
Definition dict_get {A : Type} (entry : option A) (default : A) : A :=
  match entry with
  | Some v => v
  | None => default
  end.

Module ConnectorBox.

Record t : Type := mk {
  pos : Vector2.t;
  width : R;
  height : R;
  color : Z * Z * Z;
  fixed_leg_length : R;
  outer_connection : ConnectionPoint.t;
  inner_connection : ConnectionPoint.t;
  contact_y_proportion : R;
  indicator_color : Z * Z * Z;
  indicator_size : R * R
}.

(** [connector_box_config] is the global dictionary the constructor
    reads. *)
Definition __init__ (connector_box_config : connector_box_config_t)
    (pos : Vector2.t) (width height : R) (color : Z * Z * Z)
    (outer_offset inner_offset : Vector2.t) (fixed_leg_length : R) : t :=
  mk pos width height color fixed_leg_length
     (ConnectionPoint.__init__ pos outer_offset)
     (ConnectionPoint.__init__ pos inner_offset)
     (dict_get (cfg_contact_y_proportion connector_box_config) 1)
     (dict_get (cfg_indicator_color connector_box_config) (255, 255, 0)%Z)
     (dict_get (cfg_indicator_size connector_box_config) (10, 10)).

Definition set_pos (p : Vector2.t) (self : t) : t :=
  mk p (width self) (height self) (color self) (fixed_leg_length self)
     (outer_connection self) (inner_connection self)
     (contact_y_proportion self) (indicator_color self) (indicator_size self).

(** [cp.pos = pygame.Vector2(cp.pos.x, new_y)] *)
Definition at_height (new_y : R) (cp : ConnectionPoint.t) : ConnectionPoint.t :=
  ConnectionPoint.mk (ConnectionPoint.offset cp)
    (Vector2.mk (Vector2.x (ConnectionPoint.pos cp)) new_y)
    (ConnectionPoint.displacement cp).

Definition update (self : t) : t :=
  let outer := ConnectionPoint.update (pos self) (outer_connection self) in
  let inner := ConnectionPoint.update (pos self) (inner_connection self) in
  let new_y :=
    Vector2.y (pos self) - height self / 2 +
    contact_y_proportion self * height self in
  mk (pos self) (width self) (height self) (color self)
     (fixed_leg_length self)
     (at_height new_y outer) (at_height new_y inner)
     (contact_y_proportion self) (indicator_color self) (indicator_size self).

(** The two legs [draw] hands to [pygame.draw.line], each as its two end
    points, inner leg first. *)
Definition legs (self : t) (outer_cart_cp inner_cart_cp : ConnectionPoint.t)
  : ((Z * Z) * (Z * Z)) * ((Z * Z) * (Z * Z)) :=
  let ic := ConnectionPoint.pos (inner_connection self) in
  let oc := ConnectionPoint.pos (outer_connection self) in
  let inner_target :=
    Vector2.mk (Vector2.x (ConnectionPoint.pos inner_cart_cp)) (Vector2.y ic) in
  let outer_target :=
    Vector2.mk (Vector2.x (ConnectionPoint.pos outer_cart_cp)) (Vector2.y oc) in
  (((py_int (Vector2.x ic), py_int (Vector2.y ic)),
    (py_int (Vector2.x inner_target), py_int (Vector2.y inner_target))),
   ((py_int (Vector2.x oc), py_int (Vector2.y oc)),
    (py_int (Vector2.x outer_target), py_int (Vector2.y outer_target)))).

(** [draw]: the box after the call, which updates it, and the legs drawn. *)
Definition draw (self : t) (outer_cart_cp inner_cart_cp : ConnectionPoint.t)
  : t * (((Z * Z) * (Z * Z)) * ((Z * Z) * (Z * Z))) :=
  let self := update self in
  (self, legs self outer_cart_cp inner_cart_cp).

End ConnectorBox.

(** ** The module level of [cart.py]: configuration, objects, main loop *)
Module scene.

Definition outer_cart_config : cart_config_t :=
  mk_cart_config (Vector2.mk 400 300) 400 200 (0, 0, 255)%Z
    (Vector2.mk (-200) 50) (Vector2.mk 200 20).

Definition inner_cart_config : cart_config_t :=
  mk_cart_config (Vector2.mk 400 350) 100 50 (0, 0, 180)%Z
    (Vector2.mk (-50) 0) (Vector2.mk 50 0).

(** [spring_config]: [num_coils] and [amplitude]. *)
Definition spring_config : Spring.t := Spring.mk 10 10.

Definition connector_box_config : connector_box_config_t :=
  mk_connector_box_config (Vector2.mk 400 330) 80 40 (0, 0, 0)%Z
    (Vector2.mk 40 20) (Vector2.mk (-40) 0) 15
    (Some (1 / 2)) (Some (255, 255, 0)%Z) (Some (10, 30)).

Definition cart_speed : R := 100.

(** The objects of the module and the variables of the main loop. *)
Record world : Type := mk_world {
  outer_cart : Cart.t;
  inner_cart : Cart.t;
  spring : Spring.t;
  connector_box : ConnectorBox.t;
  conv : attrs;
  outer_cart_velocity : Vector2.t;
  outer_cart_displacement : Vector2.t;
  running : bool
}.

(** What one pass of the loop reads from pygame: whether a [QUIT] event is
    in the queue, and the two keys. *)
Record input : Type := mk_input {
  QUIT : bool;
  K_LEFT : bool;
  K_RIGHT : bool
}.

(** The module up to the main loop.  An exception of
    [conv.update_parameters] ends the script. *)
Definition start (fm : floats) : result world :=
  let outer_cart :=
    Cart.__init__ (cfg_pos outer_cart_config) (cfg_width outer_cart_config)
      (cfg_height outer_cart_config) (cfg_color outer_cart_config)
      (cfg_spring_contact_offset outer_cart_config)
      (cfg_connector_contact_offset outer_cart_config) in
  let inner_cart :=
    Cart.__init__ (cfg_pos inner_cart_config) (cfg_width inner_cart_config)
      (cfg_height inner_cart_config) (cfg_color inner_cart_config)
      (cfg_spring_contact_offset inner_cart_config)
      (cfg_connector_contact_offset inner_cart_config) in
  let connector_box :=
    ConnectorBox.__init__ connector_box_config
      (cfg_box_pos connector_box_config) (cfg_box_width connector_box_config)
      (cfg_box_height connector_box_config)
      (cfg_box_color connector_box_config)
      (cfg_contact_offset_outer connector_box_config)
      (cfg_contact_offset_inner connector_box_config)
      (cfg_fixed_leg_length connector_box_config) in
  match cart.update_parameters fm 185 500 1500 (1 / 60) cart.__init__ with
  | (Raise e, _) => Raise e
  | (Return _, conv) =>
      Return (mk_world outer_cart inner_cart spring_config connector_box conv
                (Vector2.mk 0 0) (Vector2.mk 0 0) true)
  end.

(** One pass of the body of [while running].  An exception ends the
    script.  Of the drawing, the pass keeps what changes the objects
    ([connector_box.draw] updates the box) and what can raise
    ([spring.draw]). *)
Definition frame (fm : floats) (i : input) (w : world) : result world :=
  let running := if QUIT i then false else running w in
  let velocity :=
    Vector2.mk
      (if K_LEFT i then - cart_speed
       else if K_RIGHT i then cart_speed
       else 0)
      (Vector2.y (outer_cart_velocity w)) in
  let outer :=
    Cart.set_pos
      (Vector2.add (Cart.pos (outer_cart w)) (Vector2.scale velocity (1 / 60)))
      (outer_cart w) in
  let displacement := Vector2.sub (Cart.pos outer) (cfg_pos outer_cart_config) in
  match cart.calculate_output fm (Vector2.x displacement) (conv w) with
  | (Raise e, _) => Raise e
  | (Return out, conv') =>
      let inner :=
        Cart.set_pos
          (Vector2.mk (Vector2.x (cfg_pos inner_cart_config) + out)
                      (Vector2.y (Cart.pos (inner_cart w))))
          (inner_cart w) in
      let outer := Cart.update (Vector2.mk 0 0) outer in
      let inner := Cart.update (Vector2.mk 0 0) inner in
      let fixed_leg_length := cfg_fixed_leg_length connector_box_config in
      let inner_cp := ConnectionPoint.pos (Cart.connector_connection inner) in
      let box :=
        ConnectorBox.set_pos
          (Vector2.sub
             (Vector2.add inner_cp (Vector2.mk fixed_leg_length 0))
             (cfg_contact_offset_inner connector_box_config))
          (connector_box w) in
      and_then
        (Spring.draw fm (spring w)
           (ConnectionPoint.pos (Cart.spring_connection inner))
           (ConnectionPoint.pos (Cart.spring_connection outer)))
        (fun _ =>
           let box :=
             fst (ConnectorBox.draw box (Cart.connector_connection outer)
                    (Cart.connector_connection inner)) in
           Return (mk_world outer inner (spring w) box conv'
                     velocity displacement running))
  end.

(** [while running:] over the inputs of successive passes. *)
Fixpoint loop (fm : floats) (inputs : list input) (w : world) : result world :=
  match inputs with
  | [] => Return w
  | i :: rest =>
      if running w then and_then (frame fm i w) (loop fm rest)
      else Return w
  end.

End scene.

(** ** Predicates on the objects of [cart.py] *)

(** A connection point sits at its parent's position plus its offset. *)
Definition attached (parent_pos : Vector2.t) (cp : ConnectionPoint.t) : Prop :=
  ConnectionPoint.pos cp = Vector2.add parent_pos (ConnectionPoint.offset cp).

(** Both connection points of a cart are attached to it. *)
Definition cart_in_sync (c : Cart.t) : Prop :=
  attached (Cart.pos c) (Cart.spring_connection c) /\
  attached (Cart.pos c) (Cart.connector_connection c).

(** Two filters hold the same coefficients. *)
Definition same_coefficients (s s0 : attrs) : Prop :=
  alpha s = alpha s0 /\ omega s = omega s0 /\ g0 s = g0 s0 /\
  g1 s = g1 s0 /\ dt s = dt s0.

(** What the main loop keeps, from the first pass on: the coefficients of
    [conv] and the offsets are those of the module's initialisation, the
    carts stay at their heights with their connection points attached, and
    the inner cart sits at its configured place shifted by the last output
    of [conv], whose last input is the shift of the outer cart. *)
Definition scene_invariant (w : scene.world) : Prop :=
  same_coefficients (scene.conv w)
    (updated 185 500 1500 (1 / 60) RecursiveConvolution.__init__) /\
  scene.spring w = scene.spring_config /\
  cart_in_sync (scene.outer_cart w) /\
  cart_in_sync (scene.inner_cart w) /\
  ConnectionPoint.offset (Cart.spring_connection (scene.outer_cart w)) =
    cfg_spring_contact_offset scene.outer_cart_config /\
  ConnectionPoint.offset (Cart.connector_connection (scene.outer_cart w)) =
    cfg_connector_contact_offset scene.outer_cart_config /\
  ConnectionPoint.offset (Cart.spring_connection (scene.inner_cart w)) =
    cfg_spring_contact_offset scene.inner_cart_config /\
  ConnectionPoint.offset (Cart.connector_connection (scene.inner_cart w)) =
    cfg_connector_contact_offset scene.inner_cart_config /\
  Vector2.y (Cart.pos (scene.outer_cart w)) = 300 /\
  Vector2.y (Cart.pos (scene.inner_cart w)) = 350 /\
  Vector2.y (scene.outer_cart_velocity w) = 0 /\
  ConnectionPoint.offset (ConnectorBox.inner_connection (scene.connector_box w))
    = cfg_contact_offset_inner scene.connector_box_config /\
  ConnectionPoint.offset (ConnectorBox.outer_connection (scene.connector_box w))
    = cfg_contact_offset_outer scene.connector_box_config /\
  ConnectorBox.contact_y_proportion (scene.connector_box w) = 1 / 2 /\
  ConnectorBox.height (scene.connector_box w) = 40 /\
  Vector2.x (Cart.pos (scene.inner_cart w)) =
    400 + prev_y1 (scene.conv w) /\
  prev_x (scene.conv w) = Vector2.x (Cart.pos (scene.outer_cart w)) - 400.

(** The inner leg: the connector box's inner contact is [fixed_leg_length]
    to the right of the inner cart's connector contact, at its height. *)
Definition inner_leg_fixed (w : scene.world) : Prop :=
  let box_contact :=
    ConnectionPoint.pos (ConnectorBox.inner_connection (scene.connector_box w)) in
  let cart_contact :=
    ConnectionPoint.pos (Cart.connector_connection (scene.inner_cart w)) in
  Vector2.x box_contact =
    Vector2.x cart_contact + cfg_fixed_leg_length scene.connector_box_config /\
  Vector2.y box_contact = Vector2.y cart_contact.

(** The squares, the exponential and the angle that [update_parameters]
    computes are within the range of the arithmetic. *)
Definition update_in_range (fm : floats) (b m k T : R) : Prop :=
  overflows fm ((b / (2 * m)) ^ 2) = false /\
  overflows fm (exp (- (b / (2 * m)) * T)) = false /\
  overflows fm (sqrt (py_max 0 (k / m - (b / (2 * m)) ^ 2)) * T) = false /\
  overflows fm (b ^ 2) = false.

(** One step of a method body. *)
Ltac run :=
  cbn [bind lift assign num attr ret throw fst snd is_None orb
       alpha omega g0 g1 g2 dt prev_y1 prev_y2 prev_x
       set_alpha set_omega set_g0 set_g1 set_dt
       set_prev_y1 set_prev_y2 set_prev_x].

(** * Properties *)

(** ** The interpreter's arithmetic *)

Lemma py_max_Rmax (x y : R) : py_max x y = Rmax x y.
Proof.
  unfold py_max, Rmax.
  destruct (Rlt_dec x y) as [Hlt | Hge], (Rle_dec x y) as [Hle | Hgt];
    try reflexivity; lra.
Qed.

Lemma py_max_nonneg (v : R) : 0 <= py_max 0 v.
Proof.
  unfold py_max. destruct (Rlt_dec 0 v); lra.
Qed.

Lemma math_sqrt_clamped (v : R) :
  math_sqrt (py_max 0 v) = Return (sqrt (py_max 0 v)).
Proof.
  unfold math_sqrt. pose proof (py_max_nonneg v) as H.
  destruct (Rlt_dec (py_max 0 v) 0); [lra | reflexivity].
Qed.

Lemma clamp_zero (v : R) : v <= 0 -> sqrt (py_max 0 v) = 0.
Proof.
  intros H. unfold py_max. destruct (Rlt_dec 0 v); [lra | apply sqrt_0].
Qed.

Lemma clamp_pos (v : R) : 0 < v -> 0 < sqrt (py_max 0 v).
Proof.
  intros H. unfold py_max. destruct (Rlt_dec 0 v); [| lra].
  now apply sqrt_lt_R0.
Qed.

Lemma clamp_zero_iff (v : R) : sqrt (py_max 0 v) = 0 <-> v <= 0.
Proof.
  split.
  - intros H. destruct (Rle_dec v 0) as [Hle | Hgt]; [exact Hle |].
    assert (0 < sqrt (py_max 0 v)) by (apply clamp_pos; lra). lra.
  - apply clamp_zero.
Qed.

Lemma py_truediv_ok (x y : R) : y <> 0 -> py_truediv x y = Return (x / y).
Proof.
  intros H. unfold py_truediv.
  destruct (Req_dec_T y 0); [contradiction | reflexivity].
Qed.

Lemma py_truediv_zero (x : R) : py_truediv x 0 = Raise ZeroDivisionError.
Proof.
  unfold py_truediv. destruct (Req_dec_T 0 0); [reflexivity | contradiction].
Qed.

Lemma overflows_ideal (v : R) : overflows Ideal v = false.
Proof. reflexivity. Qed.

(** ** The monadic bodies and their flat forms *)

Lemma update_parameters_flat_eq fm b m k T s :
  RecursiveConvolution.update_parameters fm b m k T s =
  update_parameters_flat fm b m k T s.
Proof.
  unfold RecursiveConvolution.update_parameters, update_parameters_flat.
  destruct (Req_dec_T m 0) as [Hm | Hm].
  - subst m. rewrite Rmult_0_r. run. rewrite py_truediv_zero. reflexivity.
  - assert (H2m : 2 * m <> 0) by lra.
    run. rewrite (py_truediv_ok b _ H2m), (py_truediv_ok k _ Hm).
    run. unfold py_pow at 1.
    destruct (overflows fm ((b / (2 * m)) ^ 2)); [reflexivity |].
    run. rewrite math_sqrt_clamped, (py_truediv_ok b _ Hm).
    run. unfold math_exp.
    destruct (overflows fm (exp (- (b / (2 * m)) * T))); [reflexivity |].
    run. unfold math_cos, math_sin.
    set (w := sqrt (py_max 0 (k / m - (b / (2 * m)) ^ 2))).
    destruct (overflows fm (w * T)); [reflexivity |].
    run. unfold py_pow.
    destruct (overflows fm (b ^ 2)); [reflexivity |].
    run. rewrite (py_truediv_ok _ _ H2m).
    run. unfold py_truediv.
    destruct (Req_dec_T w 0) as [Hw | Hw].
    + destruct (Req_dec_T (m * w) 0) as [_ | Hmw]; [reflexivity |].
      exfalso. apply Hmw. rewrite Hw. apply Rmult_0_r.
    + destruct (Req_dec_T (m * w) 0) as [Hmw | _].
      * exfalso. apply Rmult_integral in Hmw. tauto.
      * reflexivity.
Qed.

Lemma calculate_output_flat_eq fm x s :
  RecursiveConvolution.calculate_output fm x s = calculate_output_flat fm x s.
Proof.
  unfold RecursiveConvolution.calculate_output, calculate_output_flat.
  destruct s as [p q r a w y1 y2 x1 T].
  destruct q as [q |]; run; [| reflexivity].
  destruct T as [T |]; run; [| reflexivity].
  destruct a as [a |]; run; [| reflexivity].
  unfold math_exp at 1.
  destruct (overflows fm (exp (- a * T))); run; [reflexivity |].
  destruct w as [w |]; run; [| reflexivity].
  unfold math_cos.
  destruct (overflows fm (w * T)); run; [reflexivity |].
  unfold math_exp.
  destruct (overflows fm (exp (-2 * a * T))); run; [reflexivity |].
  destruct p as [p |]; run; reflexivity.
Qed.

Lemma cart_update_parameters_eq fm b m k T s :
  cart.update_parameters fm b m k T s =
  RecursiveConvolution.update_parameters fm b m k T s.
Proof. reflexivity. Qed.

(** ** [update_parameters] *)

Lemma update_parameters_zero_mass fm b k T s :
  RecursiveConvolution.update_parameters fm b 0 k T s =
  (Raise ZeroDivisionError, s).
Proof.
  rewrite update_parameters_flat_eq. unfold update_parameters_flat.
  destruct (Req_dec_T 0 0); [reflexivity | contradiction].
Qed.

Lemma update_parameters_returns_inv fm b m k T s s' :
  RecursiveConvolution.update_parameters fm b m k T s = (Return tt, s') ->
  m <> 0 /\ (b / (2 * m)) ^ 2 < k / m /\ s' = updated b m k T s.
Proof.
  rewrite update_parameters_flat_eq. unfold update_parameters_flat.
  destruct (Req_dec_T m 0) as [Hm | Hm]; [discriminate |].
  destruct (overflows fm ((b / (2 * m)) ^ 2)); [discriminate |].
  destruct (overflows fm (exp (- (b / (2 * m)) * T))); [discriminate |].
  destruct (overflows fm (_ * T)); [discriminate |].
  destruct (overflows fm (b ^ 2)); [discriminate |].
  destruct (Req_dec_T _ 0) as [Hw | Hw]; [discriminate |].
  intros H. injection H as <-. repeat split; [exact Hm |].
  destruct (Rlt_dec ((b / (2 * m)) ^ 2) (k / m)) as [Hlt | Hge]; [exact Hlt |].
  exfalso. apply Hw. apply clamp_zero. lra.
Qed.

Lemma update_parameters_ok fm b m k T s :
  m <> 0 ->
  (b / (2 * m)) ^ 2 < k / m ->
  overflows fm ((b / (2 * m)) ^ 2) = false ->
  overflows fm (exp (- (b / (2 * m)) * T)) = false ->
  overflows fm (sqrt (py_max 0 (k / m - (b / (2 * m)) ^ 2)) * T) = false ->
  overflows fm (b ^ 2) = false ->
  RecursiveConvolution.update_parameters fm b m k T s =
  (Return tt, updated b m k T s).
Proof.
  intros Hm Hlt Ha He Hc Hb.
  rewrite update_parameters_flat_eq. unfold update_parameters_flat.
  destruct (Req_dec_T m 0) as [Hm0 | _]; [contradiction |].
  rewrite Ha, He, Hc, Hb.
  destruct (Req_dec_T _ 0) as [Hw | _]; [| reflexivity].
  exfalso. apply clamp_zero_iff in Hw. lra.
Qed.

Lemma update_parameters_ideal_ok b m k T s :
  m <> 0 ->
  (b / (2 * m)) ^ 2 < k / m ->
  RecursiveConvolution.update_parameters Ideal b m k T s =
  (Return tt, updated b m k T s).
Proof.
  intros Hm Hlt. now apply update_parameters_ok.
Qed.

Lemma update_parameters_ideal_clamped b m k T s :
  m <> 0 ->
  k / m <= (b / (2 * m)) ^ 2 ->
  RecursiveConvolution.update_parameters Ideal b m k T s =
  (Raise ZeroDivisionError, half_updated b m k s).
Proof.
  intros Hm Hle.
  rewrite update_parameters_flat_eq. unfold update_parameters_flat.
  destruct (Req_dec_T m 0) as [Hm0 | _]; [contradiction |].
  rewrite !overflows_ideal.
  destruct (Req_dec_T _ 0) as [_ | Hw]; [reflexivity |].
  exfalso. apply Hw. apply clamp_zero. lra.
Qed.

(** A call that raises keeps [g1], [dt] and the history, and never puts
    [None] back into an attribute. *)
Lemma update_parameters_raise_frame fm b m k T s e s' :
  RecursiveConvolution.update_parameters fm b m k T s = (Raise e, s') ->
  g1 s' = g1 s /\ dt s' = dt s /\ g2 s' = g2 s /\
  prev_y1 s' = prev_y1 s /\ prev_y2 s' = prev_y2 s /\ prev_x s' = prev_x s /\
  (is_None (alpha s) = false -> is_None (alpha s') = false) /\
  (is_None (omega s) = false -> is_None (omega s') = false) /\
  (is_None (g0 s) = false -> is_None (g0 s') = false).
Proof.
  rewrite update_parameters_flat_eq. unfold update_parameters_flat.
  destruct (Req_dec_T m 0); [intros H; injection H as _ <-; tauto |].
  destruct (overflows fm ((b / (2 * m)) ^ 2));
    [intros H; injection H as _ <-; cbn; tauto |].
  destruct (overflows fm (exp (- (b / (2 * m)) * T)));
    [intros H; injection H as _ <-; cbn; tauto |].
  destruct (overflows fm (_ * T));
    [intros H; injection H as _ <-; cbn; tauto |].
  destruct (overflows fm (b ^ 2));
    [intros H; injection H as _ <-; cbn; tauto |].
  destruct (Req_dec_T _ 0); [intros H; injection H as _ <-; cbn; tauto |].
  discriminate.
Qed.

Lemma updated_ready b m k T s : ready (updated b m k T s).
Proof.
  unfold ready, updated. cbn [alpha omega g0 g1 dt].
  do 5 eexists. repeat split; reflexivity.
Qed.

Lemma updated_idem b m k T s :
  updated b m k T (updated b m k T s) = updated b m k T s.
Proof. reflexivity. Qed.

(** ** [calculate_output] *)

Lemma calculate_output_uninitialized fm x s :
  g1 s = None \/ dt s = None ->
  RecursiveConvolution.calculate_output fm x s =
  (Raise (ValueError not_initialized), s).
Proof.
  rewrite calculate_output_flat_eq. unfold calculate_output_flat.
  intros [H | H]; rewrite H; [reflexivity |].
  destruct (g1 s); reflexivity.
Qed.

Lemma calculate_output_ok fm x s a w p q T :
  alpha s = Some a -> omega s = Some w -> g0 s = Some p ->
  g1 s = Some q -> dt s = Some T ->
  overflows fm (exp (- a * T)) = false ->
  overflows fm (w * T) = false ->
  overflows fm (exp (-2 * a * T)) = false ->
  let y := output a w p q T (prev_y1 s) (prev_y2 s) (prev_x s) x in
  RecursiveConvolution.calculate_output fm x s = (Return y, shift x y s).
Proof.
  intros Ha Hw Hp Hq HT H1 Hc H2 y.
  rewrite calculate_output_flat_eq. unfold calculate_output_flat.
  rewrite Hq, HT, Ha, H1, Hw, Hc, H2, Hp. reflexivity.
Qed.

Lemma calculate_output_returns_inv fm x s y s' :
  RecursiveConvolution.calculate_output fm x s = (Return y, s') ->
  exists a w p q T,
    alpha s = Some a /\ omega s = Some w /\ g0 s = Some p /\
    g1 s = Some q /\ dt s = Some T /\
    y = output a w p q T (prev_y1 s) (prev_y2 s) (prev_x s) x /\
    s' = shift x y s.
Proof.
  rewrite calculate_output_flat_eq. unfold calculate_output_flat.
  destruct (g1 s) as [q |]; [| discriminate].
  destruct (dt s) as [T |]; [| discriminate].
  destruct (alpha s) as [a |]; [| discriminate].
  destruct (overflows fm (exp (- a * T))); [discriminate |].
  destruct (omega s) as [w |]; [| discriminate].
  destruct (overflows fm (w * T)); [discriminate |].
  destruct (overflows fm (exp (-2 * a * T))); [discriminate |].
  destruct (g0 s) as [p |]; [| discriminate].
  intros H. injection H as <- <-.
  exists a, w, p, q, T. repeat split; reflexivity.
Qed.

(** Every exception of [calculate_output] is raised before its first
    assignment. *)
Lemma calculate_output_raise_frame fm x s e s' :
  RecursiveConvolution.calculate_output fm x s = (Raise e, s') -> s' = s.
Proof.
  rewrite calculate_output_flat_eq. unfold calculate_output_flat.
  destruct (g1 s) as [q |]; [| intros H; now injection H].
  destruct (dt s) as [T |]; [| intros H; now injection H].
  destruct (alpha s) as [a |]; [| intros H; now injection H].
  destruct (overflows fm (exp (- a * T))); [intros H; now injection H |].
  destruct (omega s) as [w |]; [| intros H; now injection H].
  destruct (overflows fm (w * T)); [intros H; now injection H |].
  destruct (overflows fm (exp (-2 * a * T))); [intros H; now injection H |].
  destruct (g0 s) as [p |]; [| intros H; now injection H].
  discriminate.
Qed.

Lemma shift_ready x y s : ready s -> ready (shift x y s).
Proof.
  intros (a & w & p & q & T & H). exists a, w, p, q, T. exact H.
Qed.

Lemma calculate_output_keeps_ready fm x s :
  ready s -> ready (snd (RecursiveConvolution.calculate_output fm x s)).
Proof.
  intros H.
  destruct (RecursiveConvolution.calculate_output fm x s) as [[y | e] s'] eqn:E.
  - apply calculate_output_returns_inv in E.
    destruct E as (_ & _ & _ & _ & _ & _ & _ & _ & _ & _ & _ & ->).
    now apply shift_ready.
  - apply calculate_output_raise_frame in E. now subst.
Qed.

(** ** The life cycle *)

Lemma reach_invariant fm l s :
  reach fm l s ->
  match l with
  | Uninitialized => g1 s = None /\ dt s = None
  | Ready => ready s
  end.
Proof.
  induction 1 as [| l s b m k T s' _ IH Hup | l s b m k T e s' _ IH Hup
                  | l s x _ IH].
  - split; reflexivity.
  - apply update_parameters_returns_inv in Hup.
    destruct Hup as (_ & _ & ->). apply updated_ready.
  - apply update_parameters_raise_frame in Hup.
    destruct Hup as (Hq & HT & _ & _ & _ & _ & Ha & Hw & Hp).
    destruct l.
    + now rewrite Hq, HT.
    + destruct IH as (a & w & p & q & T' & Ea & Ew & Ep & Eq & ET).
      rewrite Ea in Ha. rewrite Ew in Hw. rewrite Ep in Hp.
      specialize (Ha eq_refl). specialize (Hw eq_refl). specialize (Hp eq_refl).
      destruct (alpha s') as [a' |] eqn:Ea'; [| discriminate Ha].
      destruct (omega s') as [w' |] eqn:Ew'; [| discriminate Hw].
      destruct (g0 s') as [p' |] eqn:Ep'; [| discriminate Hp].
      exists a', w', p', q, T'. rewrite Hq, HT.
      repeat split; solve [reflexivity | assumption].
  - destruct l.
    + rewrite calculate_output_uninitialized by tauto. exact IH.
    + now apply calculate_output_keeps_ready.
Qed.

Lemma reach_ready fm s : reach fm Ready s -> ready s.
Proof. apply (reach_invariant fm Ready). Qed.

(** There is no [calculate_output] transition out of [Uninitialized]. *)
Lemma reach_uninitialized_raises fm s x :
  reach fm Uninitialized s ->
  RecursiveConvolution.calculate_output fm x s =
  (Raise (ValueError not_initialized), s).
Proof.
  intros H. apply (reach_invariant fm Uninitialized) in H.
  apply calculate_output_uninitialized. now left.
Qed.

(** ** The range of a double *)

Lemma exp_le_compat (x y : R) : x <= y -> exp x <= exp y.
Proof.
  intros [Hlt | ->]; [left; now apply exp_increasing | right; reflexivity].
Qed.

Lemma exp_INR (n : nat) : exp (INR n) = exp 1 ^ n.
Proof.
  induction n as [| n IH].
  - simpl. apply exp_0.
  - rewrite S_INR, exp_plus, IH. simpl. ring.
Qed.

Lemma exp_upper (n : nat) (x : R) : x <= INR n -> exp x <= 3 ^ n.
Proof.
  intros H. apply Rle_trans with (exp (INR n)); [now apply exp_le_compat |].
  rewrite exp_INR. apply pow_incr. split; [left; apply exp_pos | apply exp_le_3].
Qed.

Lemma exp_lower (n : nat) (x : R) : INR n <= x -> 2 ^ n <= exp x.
Proof.
  intros H. apply Rle_trans with (exp (INR n)); [| now apply exp_le_compat].
  rewrite exp_INR. apply pow_incr. split; [lra |].
  left. replace 2 with (1 + 1) by ring. apply exp_ineq1. lra.
Qed.

Lemma no_overflow (fm : floats) (v : R) :
  Rabs v < DBL_OVERFLOW -> overflows fm v = false.
Proof.
  intros H. destruct fm; [reflexivity |]. unfold overflows.
  destruct (Rle_dec DBL_OVERFLOW (Rabs v)); [lra | reflexivity].
Qed.

Lemma overflow_double (v : R) :
  DBL_OVERFLOW <= v -> overflows Double v = true.
Proof.
  intros H. unfold overflows.
  assert (0 < DBL_OVERFLOW) by (apply IZR_lt; reflexivity).
  rewrite Rabs_pos_eq by lra.
  destruct (Rle_dec DBL_OVERFLOW v); [reflexivity | contradiction].
Qed.

Lemma below_DBL_OVERFLOW (z : Z) (v : R) :
  (z <? 2 ^ 1024 - 2 ^ 970)%Z = true -> Rabs v <= IZR z -> Rabs v < DBL_OVERFLOW.
Proof.
  intros Hz Hv. apply Rle_lt_trans with (IZR z); [exact Hv |].
  apply IZR_lt. now apply Z.ltb_lt.
Qed.

Lemma exp_600_no_overflow (fm : floats) (x : R) :
  x <= 600 -> overflows fm (exp x) = false.
Proof.
  intros H. apply no_overflow.
  rewrite Rabs_pos_eq by (left; apply exp_pos).
  apply Rle_lt_trans with (3 ^ 600).
  - apply exp_upper. rewrite INR_IZR_INZ. exact H.
  - unfold DBL_OVERFLOW. rewrite pow_IZR. apply IZR_lt. reflexivity.
Qed.

Lemma exp_1200_overflow (x : R) :
  1200 <= x -> overflows Double (exp x) = true.
Proof.
  intros H. apply overflow_double.
  apply Rle_trans with (2 ^ 1200).
  - unfold DBL_OVERFLOW. rewrite pow_IZR. apply IZR_le.
    apply Z.leb_le. vm_compute. reflexivity.
  - apply exp_lower. rewrite INR_IZR_INZ. exact H.
Qed.

Lemma const_no_overflow (fm : floats) (v : R) :
  Rabs v <= 10000000 -> overflows fm v = false.
Proof.
  intros H. apply no_overflow.
  now apply (below_DBL_OVERFLOW 10000000).
Qed.

Lemma clamp_bound (v c : R) :
  v <= c -> 0 <= c -> 0 <= sqrt (py_max 0 v) <= 1 + c.
Proof.
  intros Hv Hc. split; [apply sqrt_pos |].
  pose proof (py_max_nonneg v) as H0.
  assert (Hle : py_max 0 v <= (1 + c) * (1 + c)).
  { unfold py_max. destruct (Rlt_dec 0 v); nra. }
  apply Rle_trans with (sqrt ((1 + c) * (1 + c))).
  - now apply sqrt_le_1_alt.
  - rewrite sqrt_square; lra.
Qed.

Lemma angle_no_overflow (fm : floats) (v c T : R) :
  v <= c -> 0 <= c -> 0 <= T -> (1 + c) * T <= 10000000 ->
  overflows fm (sqrt (py_max 0 v) * T) = false.
Proof.
  intros Hv Hc HT Hb. apply const_no_overflow.
  destruct (clamp_bound v c Hv Hc) as [H0 H1].
  rewrite Rabs_pos_eq by nra. nra.
Qed.

(** ** The example instances *)

Lemma demo_updated (fm : floats) :
  RecursiveConvolution.update_parameters fm 1 1 10 (1 / 1000)
    RecursiveConvolution.__init__ =
  (Return tt, updated 1 1 10 (1 / 1000) RecursiveConvolution.__init__).
Proof.
  apply update_parameters_ok; try lra.
  - apply const_no_overflow. rewrite Rabs_pos_eq; lra.
  - apply exp_600_no_overflow. lra.
  - apply (angle_no_overflow fm _ 10); lra.
  - apply const_no_overflow. rewrite Rabs_pos_eq; lra.
Qed.

Lemma demo_reach (fm : floats) : reach fm Ready (demo fm).
Proof.
  unfold demo. rewrite demo_updated.
  exact (reach_update_ok fm _ _ _ _ _ _ _ (reach_new fm) (demo_updated fm)).
Qed.

Lemma growing_updated :
  RecursiveConvolution.update_parameters Double (-1200) 1 1360000 1
    RecursiveConvolution.__init__ =
  (Return tt, updated (-1200) 1 1360000 1 RecursiveConvolution.__init__).
Proof.
  apply update_parameters_ok; try lra.
  - apply const_no_overflow. rewrite Rabs_pos_eq; lra.
  - apply exp_600_no_overflow. lra.
  - apply (angle_no_overflow Double _ 1000000); lra.
  - apply const_no_overflow. rewrite Rabs_pos_eq; lra.
Qed.


(** ** The code's arithmetic and the formulas of the specification *)

Lemma output_spec a w p q T y1 y2 x1 x :
  output a w p q T y1 y2 x1 x = Spec.advance a w p q T y1 y2 x1 x.
Proof.
  unfold output, Spec.advance.
  replace (- a * T) with (- (a * T)) by ring.
  replace (-2 * a * T) with (- (2 * a * T)) by ring.
  reflexivity.
Qed.

Lemma omega_spec b m k :
  sqrt (py_max 0 (k / m - (b / (2 * m)) ^ 2)) = Spec.naturalFrequency b m k.
Proof.
  unfold Spec.naturalFrequency, Spec.decayRate.
  now rewrite py_max_Rmax, Rsqr_pow2.
Qed.

Lemma g1_spec b m k T :
  b / m * exp (- (b / (2 * m)) * T) *
    cos (sqrt (py_max 0 (k / m - (b / (2 * m)) ^ 2)) * T) +
  (k - b ^ 2 / (2 * m)) / (m * sqrt (py_max 0 (k / m - (b / (2 * m)) ^ 2))) *
    exp (- (b / (2 * m)) * T) *
    sin (sqrt (py_max 0 (k / m - (b / (2 * m)) ^ 2)) * T) =
  Spec.gain1 b m k T.
Proof.
  unfold Spec.gain1. cbv zeta. rewrite <- omega_spec.
  unfold Spec.gain0, Spec.decayRate. rewrite (Rsqr_pow2 b).
  replace (- (b / (2 * m)) * T) with (- (b / (2 * m) * T)) by ring.
  reflexivity.
Qed.

(** * The claims *)

(** The instance [growing]: the call that creates it returns on doubles,
    and every later [calculate_output] overflows in [math.exp(1200)]. *)
Lemma growing_state :
  growing Double = updated (-1200) 1 1360000 1 RecursiveConvolution.__init__.
Proof. unfold growing. now rewrite growing_updated. Qed.

Lemma growing_calculate_output (x : R) :
  RecursiveConvolution.calculate_output Double x (growing Double) =
  (Raise OverflowError, growing Double).
Proof.
  rewrite growing_state, calculate_output_flat_eq.
  unfold calculate_output_flat, updated.
  cbn [g0 g1 g2 alpha omega prev_y1 prev_y2 prev_x dt].
  rewrite exp_600_no_overflow by lra.
  rewrite (angle_no_overflow Double _ 1000000) by lra.
  rewrite exp_1200_overflow by lra. reflexivity.
Qed.

Lemma update_in_range_ideal (b m k T : R) : update_in_range Ideal b m k T.
Proof. repeat split. Qed.

Lemma update_parameters_in_range_ok fm b m k T s :
  m <> 0 -> (b / (2 * m)) ^ 2 < k / m -> update_in_range fm b m k T ->
  RecursiveConvolution.update_parameters fm b m k T s =
  (Return tt, updated b m k T s).
Proof.
  intros Hm Hlt (Ha & He & Hc & Hb). now apply update_parameters_ok.
Qed.

Lemma angle_no_overflow_abs (fm : floats) (v c T : R) :
  v <= c -> 0 <= c -> (1 + c) * Rabs T <= 10000000 ->
  overflows fm (sqrt (py_max 0 v) * T) = false.
Proof.
  intros Hv Hc Hb. apply const_no_overflow.
  destruct (clamp_bound v c Hv Hc) as [H0 H1].
  rewrite Rabs_mult, (Rabs_pos_eq (sqrt (py_max 0 v))) by exact H0.
  pose proof (Rabs_pos T). nra.
Qed.

(** C1, as stated, fails on doubles: the instance [growing] is one on which
    [update_parameters] has returned, all five derived attributes hold
    numbers, and [calculate_output(1)] returns no value: it raises
    [OverflowError]. *)
Lemma calculate_output_formula_overflow :
  reach Double Ready (growing Double) /\
  ready (growing Double) /\
  RecursiveConvolution.calculate_output Double 1 (growing Double) =
  (Raise OverflowError, growing Double) /\
  forall y,
    fst (RecursiveConvolution.calculate_output Double 1 (growing Double)) <>
    Return y.
Proof.
  assert (Hr : reach Double Ready (growing Double)).
  { rewrite growing_state.
    exact (reach_update_ok Double _ _ _ _ _ _ _ (reach_new Double)
             growing_updated). }
  split; [exact Hr |]. split; [exact (reach_ready _ _ Hr) |].
  split; [apply growing_calculate_output |].
  intros y. rewrite growing_calculate_output. discriminate.
Qed.

(** C1, amended.  In every state in which the five derived attributes
    hold numbers (every state of a filter on which [update_parameters] has
    returned is one, by [reach_ready]), whatever the history, and whenever
    the two exponentials and the argument of the cosine are within the
    range of the arithmetic (always so in real arithmetic),
    [calculate_output x] returns exactly
    [2·decay·cosTerm·prev_y1 − decay2·prev_y2 + dt·g0·x +
     dt·(g1 − 2·decay·g0·cosTerm)·prev_x]
    with [decay = e^(−alpha·dt)], [cosTerm = cos(omega·dt)] and
    [decay2 = e^(−2·alpha·dt)] computed from the attributes stored at the
    time of the call. *)
Theorem calculate_output_formula (fm : floats) (s : attrs) (x a w p q T : R) :
  alpha s = Some a -> omega s = Some w -> g0 s = Some p ->
  g1 s = Some q -> dt s = Some T ->
  in_range fm s ->
  fst (RecursiveConvolution.calculate_output fm x s) =
  Return (Spec.advance a w p q T (prev_y1 s) (prev_y2 s) (prev_x s) x).
Proof.
  intros Ha Hw Hp Hq HT Hin.
  destruct (Hin a w T Ha Hw HT) as (H1 & Hc & H2).
  rewrite (calculate_output_ok fm x s a w p q T) by assumption.
  cbn [fst]. now rewrite output_spec.
Qed.

Lemma calculate_output_formula_witness :
  let s := mk_attrs (Some 1) (Some 2) None (Some (1 / 2)) (Some 3)
             5 7 11 (Some (1 / 10)) in
  in_range Double s /\
  fst (RecursiveConvolution.calculate_output Double 13 s) =
  Return (Spec.advance (1 / 2) 3 1 2 (1 / 10) 5 7 11 13).
Proof.
  intros s.
  assert (Hin : in_range Double s).
  { intros a w T Ha Hw HT. cbn [s alpha omega dt] in Ha, Hw, HT.
    injection Ha as <-. injection Hw as <-. injection HT as <-.
    split; [apply exp_600_no_overflow; lra |].
    split; [apply const_no_overflow; rewrite Rabs_pos_eq; lra |].
    apply exp_600_no_overflow; lra. }
  split; [exact Hin |].
  exact (calculate_output_formula Double s 13 (1 / 2) 3 1 2 (1 / 10)
           eq_refl eq_refl eq_refl eq_refl eq_refl Hin).
Defined.

(** C2.  After a call [update_parameters(b, m, k, dt)] with [m ≠ 0] that
    returns, the stored attributes are [alpha = b/(2·m)],
    [omega = sqrt(max(0, k/m − alpha²))], [g0 = b/m], [dt] as passed and,
    whenever [omega ≠ 0],
    [g1 = g0·e^(−alpha·dt)·cos(omega·dt) +
          ((k − b²/(2·m))/(m·omega))·e^(−alpha·dt)·sin(omega·dt)]. *)
Theorem update_parameters_stores (fm : floats) (s : attrs) (b m k T : R)
    (s' : attrs) :
  m <> 0 ->
  RecursiveConvolution.update_parameters fm b m k T s = (Return tt, s') ->
  alpha s' = Some (Spec.decayRate b m) /\
  omega s' = Some (Spec.naturalFrequency b m k) /\
  g0 s' = Some (Spec.gain0 b m) /\
  dt s' = Some T /\
  (Spec.naturalFrequency b m k <> 0 -> g1 s' = Some (Spec.gain1 b m k T)).
Proof.
  intros _ Hup. apply update_parameters_returns_inv in Hup.
  destruct Hup as (_ & _ & ->). unfold updated. cbn [alpha omega g0 g1 dt].
  rewrite g1_spec, omega_spec. repeat split; reflexivity.
Qed.

Lemma update_parameters_stores_witness :
  let s' := updated 1 1 10 (1 / 1000) RecursiveConvolution.__init__ in
  alpha s' = Some (Spec.decayRate 1 1) /\
  omega s' = Some (Spec.naturalFrequency 1 1 10) /\
  g0 s' = Some (Spec.gain0 1 1) /\
  dt s' = Some (1 / 1000) /\
  (Spec.naturalFrequency 1 1 10 <> 0 ->
   g1 s' = Some (Spec.gain1 1 1 10 (1 / 1000))).
Proof.
  intros s'.
  apply (update_parameters_stores Ideal RecursiveConvolution.__init__
           1 1 10 (1 / 1000) s').
  - lra.
  - apply demo_updated.
Defined.

(** C3.  An overdamped parameter set ([b = 4], [m = 1], [k = 1]) makes the
    clamp give [omega = 0]; the call does not return: the division by
    [m * self.omega] raises [ZeroDivisionError], after [alpha], [omega] and
    [g0] have been assigned and before [g1] and [dt] are. *)
Theorem overdamped_raises :
  overdamped Ideal RecursiveConvolution.__init__ =
  (Raise ZeroDivisionError,
   mk_attrs (Some 4) None None (Some 2) (Some 0) 0 0 0 None).
Proof.
  unfold overdamped. rewrite update_parameters_ideal_clamped by lra.
  unfold half_updated. rewrite clamp_zero by lra.
  unfold set_g0, set_omega, set_alpha, RecursiveConvolution.__init__.
  cbn [g0 g1 g2 alpha omega prev_y1 prev_y2 prev_x dt].
  replace (4 / 1) with 4 by lra. replace (4 / (2 * 1)) with 2 by lra.
  reflexivity.
Qed.


Lemma zero_period_returns (fm : floats) :
  RecursiveConvolution.update_parameters fm 1 1 10 0
    RecursiveConvolution.__init__ =
  (Return tt, updated 1 1 10 0 RecursiveConvolution.__init__).
Proof.
  apply update_parameters_ok; try lra.
  - apply const_no_overflow. rewrite Rabs_pos_eq; lra.
  - apply exp_600_no_overflow. lra.
  - apply (angle_no_overflow fm _ 10); lra.
  - apply const_no_overflow. rewrite Rabs_pos_eq; lra.
Qed.

(** C5, as stated, fails: [update_parameters(1, 1, 10, 0)] has a sample
    period that is not positive, and the call returns and stores it, in
    real arithmetic and on doubles alike. *)
Lemma zero_period_accepted :
  RecursiveConvolution.update_parameters Ideal 1 1 10 0
    RecursiveConvolution.__init__ =
  (Return tt, updated 1 1 10 0 RecursiveConvolution.__init__) /\
  dt (updated 1 1 10 0 RecursiveConvolution.__init__) = Some 0 /\
  ~ (raises (fst (RecursiveConvolution.update_parameters Ideal 1 1 10 0
                    RecursiveConvolution.__init__)) <->
     (1 = 0 \/ 0 <= 0)) /\
  RecursiveConvolution.update_parameters Double 1 1 10 0
    RecursiveConvolution.__init__ =
  (Return tt, updated 1 1 10 0 RecursiveConvolution.__init__) /\
  ~ (raises (fst (RecursiveConvolution.update_parameters Double 1 1 10 0
                    RecursiveConvolution.__init__)) <->
     (1 = 0 \/ 0 <= 0)).
Proof.
  assert (Hno : forall fm,
             ~ (raises (fst (RecursiveConvolution.update_parameters fm 1 1 10 0
                               RecursiveConvolution.__init__)) <->
                (1 = 0 \/ 0 <= 0))).
  { intros fm [_ H]. destruct H as [e He]; [right; lra |].
    rewrite zero_period_returns in He. discriminate He. }
  split; [apply zero_period_returns |]. split; [reflexivity |].
  split; [apply Hno |]. split; [apply zero_period_returns | apply Hno].
Qed.

(** C5, amended.  Outside the clamped regime, that is when [m = 0] or
    [k/m > (b/(2·m))²], and as long as the squares [(b/(2·m))²] and [b²],
    the exponential [e^(−alpha·dt)] and the angle [omega·dt] are within
    the range of the arithmetic (always so in real arithmetic),
    [update_parameters(b, m, k, dt)] raises if and only if [m = 0]: the
    sign of the sample period is not examined, so zero and negative
    periods are accepted, and so is negative damping. *)
Theorem update_parameters_raises_iff (fm : floats) (s : attrs) (b m k T : R) :
  (m <> 0 -> (b / (2 * m)) ^ 2 < k / m /\ update_in_range fm b m k T) ->
  (raises (fst (RecursiveConvolution.update_parameters fm b m k T s)) <->
   m = 0).
Proof.
  intros H. destruct (Req_dec_T m 0) as [-> | Hm].
  - rewrite update_parameters_zero_mass. split; [reflexivity |].
    intros _. now exists ZeroDivisionError.
  - destruct (H Hm) as [Hlt Hin].
    rewrite update_parameters_in_range_ok by assumption.
    split; [| contradiction]. intros [e He]. discriminate He.
Qed.

Lemma update_parameters_raises_iff_witness :
  (1 <> 0 ->
   (-1 / (2 * 1)) ^ 2 < 10 / 1 /\ update_in_range Double (-1) 1 10 (-1)) /\
  (raises (fst (RecursiveConvolution.update_parameters Double (-1) 1 10 (-1)
                  RecursiveConvolution.__init__)) <->
   1 = 0).
Proof.
  assert (H : 1 <> 0 ->
              (-1 / (2 * 1)) ^ 2 < 10 / 1 /\
              update_in_range Double (-1) 1 10 (-1)).
  { intros _. split; [lra |]. unfold update_in_range.
    split; [apply const_no_overflow; rewrite Rabs_pos_eq; lra |].
    split; [apply exp_600_no_overflow; lra |].
    split; [| apply const_no_overflow; rewrite Rabs_pos_eq; lra].
    apply (angle_no_overflow_abs Double _ 10); try lra.
    rewrite Rabs_left by lra. lra. }
  split; [exact H |].
  exact (update_parameters_raises_iff Double RecursiveConvolution.__init__
           (-1) 1 10 (-1) H).
Defined.

(** C6.  On a new instance, on which [update_parameters] has not been
    called, every call of [calculate_output], the first and each one after
    it, raises the [ValueError] of the guard ("not initialized") and leaves
    every attribute as [__init__] set it. *)
Theorem calculate_output_before_update (fm : floats) (xs : list R) (x : R) :
  advances fm xs RecursiveConvolution.__init__ = RecursiveConvolution.__init__ /\
  RecursiveConvolution.calculate_output fm x
    (advances fm xs RecursiveConvolution.__init__) =
  (Raise (ValueError not_initialized), RecursiveConvolution.__init__).
Proof.
  assert (Hone : forall y,
             RecursiveConvolution.calculate_output fm y
               RecursiveConvolution.__init__ =
             (Raise (ValueError not_initialized),
              RecursiveConvolution.__init__))
    by (intros y; apply calculate_output_uninitialized; now left).
  assert (Hall : advances fm xs RecursiveConvolution.__init__ =
                 RecursiveConvolution.__init__).
  { unfold advances. induction xs as [| y ys IH]; [reflexivity |].
    cbn [fold_left]. rewrite Hone. exact IH. }
  split; [exact Hall |]. rewrite Hall. apply Hone.
Qed.

(** C7.  A call [calculate_output x] that returns [y] leaves
    [prev_x = x], [prev_y1 = y] and [prev_y2] equal to the [prev_y1] of
    before the call, and leaves [alpha], [omega], [g0], [g1], [g2] and [dt]
    as they were. *)
Theorem calculate_output_shifts (fm : floats) (s : attrs) (x y : R)
    (s' : attrs) :
  RecursiveConvolution.calculate_output fm x s = (Return y, s') ->
  prev_x s' = x /\ prev_y1 s' = y /\ prev_y2 s' = prev_y1 s /\
  alpha s' = alpha s /\ omega s' = omega s /\
  g0 s' = g0 s /\ g1 s' = g1 s /\ g2 s' = g2 s /\ dt s' = dt s.
Proof.
  intros H. apply calculate_output_returns_inv in H.
  destruct H as (a & w & p & q & T & _ & _ & _ & _ & _ & _ & ->).
  repeat split; reflexivity.
Qed.

Lemma calculate_output_shifts_witness :
  exists y s',
    RecursiveConvolution.calculate_output Ideal 1 (demo Ideal) = (Return y, s') /\
    prev_x s' = 1 /\ prev_y1 s' = y /\ prev_y2 s' = prev_y1 (demo Ideal) /\
    alpha s' = alpha (demo Ideal) /\ omega s' = omega (demo Ideal) /\
    g0 s' = g0 (demo Ideal) /\ g1 s' = g1 (demo Ideal) /\
    g2 s' = g2 (demo Ideal) /\ dt s' = dt (demo Ideal).
Proof.
  destruct (reach_ready _ _ (demo_reach Ideal))
    as (a & w & p & q & T & Ha & Hw & Hp & Hq & HT).
  pose proof (calculate_output_ok Ideal 1 (demo Ideal) a w p q T
                Ha Hw Hp Hq HT eq_refl eq_refl eq_refl) as Hrun.
  cbv zeta in Hrun.
  eexists. eexists. split; [exact Hrun |].
  exact (calculate_output_shifts Ideal (demo Ideal) 1 _ _ Hrun).
Defined.

(** C8.  When [update_parameters(b, m, k, dt)] returns, a second call
    with the same arguments returns as well and leaves every attribute,
    [alpha], [omega], [g0], [g1] and [dt] among them, as the first call left
    it; and neither call changes [prev_y1], [prev_y2] or [prev_x]. *)
Theorem update_parameters_idempotent (fm : floats) (s : attrs) (b m k T : R)
    (s1 : attrs) :
  RecursiveConvolution.update_parameters fm b m k T s = (Return tt, s1) ->
  exists s2,
    RecursiveConvolution.update_parameters fm b m k T s1 = (Return tt, s2) /\
    alpha s2 = alpha s1 /\ omega s2 = omega s1 /\ g0 s2 = g0 s1 /\
    g1 s2 = g1 s1 /\ dt s2 = dt s1 /\
    prev_y1 s1 = prev_y1 s /\ prev_y2 s1 = prev_y2 s /\ prev_x s1 = prev_x s /\
    prev_y1 s2 = prev_y1 s1 /\ prev_y2 s2 = prev_y2 s1 /\ prev_x s2 = prev_x s1.
Proof.
  intros H1. exists s1.
  assert (H2 : RecursiveConvolution.update_parameters fm b m k T s1 =
               (Return tt, s1)).
  { pose proof (update_parameters_returns_inv _ _ _ _ _ _ _ H1) as (_ & _ & E).
    revert H1. rewrite !update_parameters_flat_eq.
    unfold update_parameters_flat.
    destruct (Req_dec_T m 0); [discriminate |].
    destruct (overflows fm ((b / (2 * m)) ^ 2)); [discriminate |].
    destruct (overflows fm (exp (- (b / (2 * m)) * T))); [discriminate |].
    destruct (overflows fm (_ * T)); [discriminate |].
    destruct (overflows fm (b ^ 2)); [discriminate |].
    destruct (Req_dec_T _ 0); [discriminate |].
    intros _. rewrite E at 2. rewrite E at 1. now rewrite updated_idem. }
  split; [exact H2 |].
  apply update_parameters_returns_inv in H1. destruct H1 as (_ & _ & ->).
  repeat split; reflexivity.
Qed.

Lemma update_parameters_idempotent_witness :
  exists s2,
    RecursiveConvolution.update_parameters Ideal 1 1 10 (1 / 1000)
      (updated 1 1 10 (1 / 1000) RecursiveConvolution.__init__) =
    (Return tt, s2) /\
    s2 = updated 1 1 10 (1 / 1000) RecursiveConvolution.__init__.
Proof.
  destruct (update_parameters_idempotent Ideal RecursiveConvolution.__init__
              1 1 10 (1 / 1000) _ (demo_updated Ideal))
    as (s2 & H2 & _).
  exists s2. split; [exact H2 |].
  apply update_parameters_returns_inv in H2. destruct H2 as (_ & _ & ->).
  reflexivity.
Defined.

(** C9.  The class of [RecursiveConvolution.py] and the class of [cart.py]
    agree: their constructors create the same attributes, and from equal
    attributes [update_parameters] and [calculate_output] give the same
    outcome and the same attributes afterwards, for every argument. *)
Theorem duplicate_classes_agree :
  cart.__init__ = RecursiveConvolution.__init__ /\
  (forall fm b m k T s,
      cart.update_parameters fm b m k T s =
      RecursiveConvolution.update_parameters fm b m k T s) /\
  (forall fm x s,
      cart.calculate_output fm x s =
      RecursiveConvolution.calculate_output fm x s).
Proof.
  split; [reflexivity |]. split.
  - intros fm b m k T s. reflexivity.
  - intros fm x s. reflexivity.
Qed.

(** C10, as stated, fails on doubles.  The instance [growing], which
    [update_parameters(-1200, 1, 1360000, 1)] initialises without error,
    holds finite attributes ([alpha = -600], [dt = 1]), and
    [calculate_output(0)] raises [OverflowError] on it: [math.exp(600)] is
    a double, [math.exp(1200)] is not. *)
Lemma calculate_output_overflow :
  reach Double Ready (growing Double) /\
  alpha (growing Double) = Some (-1200 / (2 * 1)) /\
  dt (growing Double) = Some 1 /\
  RecursiveConvolution.calculate_output Double 0 (growing Double) =
  (Raise OverflowError, growing Double) /\
  ~ returns (fst (RecursiveConvolution.calculate_output Double 0
                    (growing Double))).
Proof.
  assert (Hg : growing Double =
               updated (-1200) 1 1360000 1 RecursiveConvolution.__init__)
    by (unfold growing; now rewrite growing_updated).
  assert (Hrun : RecursiveConvolution.calculate_output Double 0
                   (growing Double) = (Raise OverflowError, growing Double)).
  { rewrite Hg, calculate_output_flat_eq.
    unfold calculate_output_flat, updated.
    cbn [g0 g1 g2 alpha omega prev_y1 prev_y2 prev_x dt].
    rewrite exp_600_no_overflow by lra.
    rewrite (angle_no_overflow Double _ 1000000) by lra.
    rewrite exp_1200_overflow by lra. reflexivity. }
  split.
  { rewrite Hg.
    exact (reach_update_ok Double _ _ _ _ _ _ _ (reach_new Double)
             growing_updated). }
  split; [now rewrite Hg |]. split; [now rewrite Hg |].
  split; [exact Hrun |].
  rewrite Hrun. intros [y Hy]. discriminate Hy.
Qed.

(** C10, amended.  Once the filter is initialised, [calculate_output]
    contains no division and no call of [math.sqrt]; it returns a value
    whenever its two exponentials, [e^(−alpha·dt)] and [e^(−2·alpha·dt)],
    and the argument [omega·dt] of its cosine are within the range of the
    arithmetic, which is always so in real arithmetic. *)
Theorem calculate_output_total (fm : floats) (s : attrs) (x : R) :
  reach fm Ready s ->
  in_range fm s ->
  returns (fst (RecursiveConvolution.calculate_output fm x s)).
Proof.
  intros Hr Hin.
  destruct (reach_ready _ _ Hr) as (a & w & p & q & T & Ha & Hw & Hp & Hq & HT).
  destruct (Hin a w T Ha Hw HT) as (H1 & Hc & H2).
  rewrite (calculate_output_ok fm x s a w p q T) by assumption.
  cbn [fst]. eexists. reflexivity.
Qed.

Lemma calculate_output_total_witness :
  reach Double Ready (demo Double) /\
  in_range Double (demo Double) /\
  returns (fst (RecursiveConvolution.calculate_output Double 1 (demo Double))).
Proof.
  assert (Hd : demo Double =
               updated 1 1 10 (1 / 1000) RecursiveConvolution.__init__)
    by (unfold demo; now rewrite demo_updated).
  assert (Hexp : in_range Double (demo Double)).
  { intros a w T Ha Hw HT. rewrite Hd in Ha, Hw, HT.
    unfold updated in Ha, Hw, HT. cbn [alpha omega dt] in Ha, Hw, HT.
    injection Ha as <-. injection Hw as <-. injection HT as <-.
    split; [apply exp_600_no_overflow; lra |].
    split; [apply (angle_no_overflow Double _ 10); lra |].
    apply exp_600_no_overflow; lra. }
  split; [apply demo_reach |]. split; [exact Hexp |].
  exact (calculate_output_total Double (demo Double) 1 (demo_reach Double) Hexp).
Defined.

(** * Further properties of the filter *)

(** X1.  [update_parameters(b, m, k, dt)] returns only for an
    underdamped parameter set with a mass, [m ≠ 0] and [k/m > (b/(2·m))²]:
    every other call raises.  Conversely it returns for every such
    parameter set whose squares [(b/(2·m))²] and [b²], exponential
    [e^(−alpha·dt)] and angle [omega·dt] are within the range of the
    arithmetic (always so in real arithmetic).  Both hold whatever the
    attributes were before. *)
Theorem update_parameters_returns_when (fm : floats) (s : attrs)
    (b m k T : R) :
  (returns (fst (RecursiveConvolution.update_parameters fm b m k T s)) ->
   m <> 0 /\ (b / (2 * m)) ^ 2 < k / m) /\
  (m <> 0 -> (b / (2 * m)) ^ 2 < k / m -> update_in_range fm b m k T ->
   returns (fst (RecursiveConvolution.update_parameters fm b m k T s))).
Proof.
  split.
  - intros [[] Hr].
    destruct (RecursiveConvolution.update_parameters fm b m k T s)
      as [r s'] eqn:E.
    cbn [fst] in Hr. subst r.
    apply update_parameters_returns_inv in E. tauto.
  - intros Hm Hlt Hin. rewrite update_parameters_in_range_ok by assumption.
    now exists tt.
Qed.

Lemma demo_in_range (fm : floats) : update_in_range fm 1 1 10 (1 / 1000).
Proof.
  unfold update_in_range.
  split; [apply const_no_overflow; rewrite Rabs_pos_eq; lra |].
  split; [apply exp_600_no_overflow; lra |].
  split; [apply (angle_no_overflow fm _ 10); lra |].
  apply const_no_overflow; rewrite Rabs_pos_eq; lra.
Qed.

Lemma update_parameters_returns_when_witness :
  update_in_range Double 1 1 10 (1 / 1000) /\
  returns (fst (RecursiveConvolution.update_parameters Double 1 1 10 (1 / 1000)
                  RecursiveConvolution.__init__)) /\
  (1 <> 0 /\ (1 / (2 * 1)) ^ 2 < 10 / 1).
Proof.
  assert (Hret : returns
            (fst (RecursiveConvolution.update_parameters Double 1 1 10
                    (1 / 1000) RecursiveConvolution.__init__))).
  { apply (proj2 (update_parameters_returns_when Double
                    RecursiveConvolution.__init__ 1 1 10 (1 / 1000)));
      [lra | lra | apply demo_in_range]. }
  split; [apply demo_in_range |]. split; [exact Hret |].
  exact (proj1 (update_parameters_returns_when Double
                  RecursiveConvolution.__init__ 1 1 10 (1 / 1000)) Hret).
Defined.

(** X2.  A call of [update_parameters] that raises, whatever the
    exception, leaves [g1], [dt], [g2] and the history [prev_y1],
    [prev_y2], [prev_x] as they were. *)
Theorem update_parameters_raise_keeps (fm : floats) (s : attrs) (b m k T : R)
    (e : exn) (s' : attrs) :
  RecursiveConvolution.update_parameters fm b m k T s = (Raise e, s') ->
  g1 s' = g1 s /\ dt s' = dt s /\ g2 s' = g2 s /\
  prev_y1 s' = prev_y1 s /\ prev_y2 s' = prev_y2 s /\ prev_x s' = prev_x s.
Proof.
  intros H. apply update_parameters_raise_frame in H. tauto.
Qed.

Lemma update_parameters_raise_keeps_witness :
  let s := updated 1 1 10 (1 / 1000) RecursiveConvolution.__init__ in
  let s' := half_updated 4 1 1 s in
  g1 s' = g1 s /\ dt s' = dt s /\ g2 s' = g2 s /\
  prev_y1 s' = prev_y1 s /\ prev_y2 s' = prev_y2 s /\ prev_x s' = prev_x s.
Proof.
  intros s s'.
  apply (update_parameters_raise_keeps Ideal s 4 1 1 (1 / 60)
           ZeroDivisionError s').
  apply update_parameters_ideal_clamped; lra.
Defined.

(** The call [update_parameters(-1200, 1, 1360000, 2)] on doubles: an
    underdamped system with a mass whose [math.exp(1200)] overflows. *)
Lemma overflowing_update_raises :
  RecursiveConvolution.update_parameters Double (-1200) 1 1360000 2
    RecursiveConvolution.__init__ =
  (Raise OverflowError,
   half_updated (-1200) 1 1360000 RecursiveConvolution.__init__).
Proof.
  rewrite update_parameters_flat_eq. unfold update_parameters_flat.
  destruct (Req_dec_T 1 0) as [H | _]; [lra |].
  rewrite const_no_overflow by (rewrite Rabs_pos_eq; lra).
  rewrite exp_1200_overflow by lra. reflexivity.
Qed.

(** X3.  A call of [update_parameters] that raises does so in one of
    three states.  With [m = 0]: [ZeroDivisionError], nothing assigned.
    With [m ≠ 0] and an overflow of [alpha ** 2]: [OverflowError], only
    [alpha] assigned.  Otherwise [alpha = b/(2·m)],
    [omega = sqrt(max(0, k/m − alpha²))] and [g0 = b/m] are assigned and
    nothing else, and the exception is [OverflowError] (of [math.exp] or
    [b ** 2]), the [ValueError] of [math.cos] on an overflowed angle, or
    [ZeroDivisionError], the last only in the clamped regime
    [k/m <= (b/(2·m))²], where the stored [omega] is [0].  In real
    arithmetic only [ZeroDivisionError] occurs. *)
Theorem update_parameters_raise_cases (fm : floats) (s : attrs) (b m k T : R)
    (e : exn) (s' : attrs) :
  RecursiveConvolution.update_parameters fm b m k T s = (Raise e, s') ->
  ((m = 0 /\ e = ZeroDivisionError /\ s' = s) \/
   (m <> 0 /\ e = OverflowError /\ s' = set_alpha (b / (2 * m)) s) \/
   (m <> 0 /\ s' = half_updated b m k s /\
    (e = OverflowError \/ e = ValueError math_domain_error \/
     (e = ZeroDivisionError /\ k / m <= (b / (2 * m)) ^ 2 /\
      omega s' = Some 0)))) /\
  (fm = Ideal -> e = ZeroDivisionError).
Proof.
  rewrite update_parameters_flat_eq. unfold update_parameters_flat.
  destruct (Req_dec_T m 0) as [Hm | Hm].
  { intros H. injection H as <- <-. split; [| reflexivity]. left. tauto. }
  destruct (overflows fm ((b / (2 * m)) ^ 2)) eqn:Ha.
  { intros H. injection H as <- <-. split.
    - right. left. tauto.
    - intros ->. discriminate Ha. }
  destruct (overflows fm (exp (- (b / (2 * m)) * T))) eqn:He.
  { intros H. injection H as <- <-. split.
    - right. right. tauto.
    - intros ->. discriminate He. }
  destruct (overflows fm (_ * T)) eqn:Hc.
  { intros H. injection H as <- <-. split.
    - right. right. tauto.
    - intros ->. discriminate Hc. }
  destruct (overflows fm (b ^ 2)) eqn:Hb.
  { intros H. injection H as <- <-. split.
    - right. right. tauto.
    - intros ->. discriminate Hb. }
  destruct (Req_dec_T _ 0) as [Hw | Hw]; [| discriminate].
  intros H. injection H as <- <-. split; [| reflexivity].
  right. right. split; [exact Hm |]. split; [reflexivity |].
  right. right. split; [reflexivity |].
  split; [now apply clamp_zero_iff in Hw; lra |].
  unfold half_updated. cbn [omega set_g0 set_omega]. now rewrite Hw.
Qed.

Lemma update_parameters_raise_cases_witness :
  let s := RecursiveConvolution.__init__ in
  let s' := half_updated (-1200) 1 1360000 s in
  ((1 = 0 /\ OverflowError = ZeroDivisionError /\ s' = s) \/
   (1 <> 0 /\ OverflowError = OverflowError /\
    s' = set_alpha (-1200 / (2 * 1)) s) \/
   (1 <> 0 /\ s' = half_updated (-1200) 1 1360000 s /\
    (OverflowError = OverflowError \/
     OverflowError = ValueError math_domain_error \/
     (OverflowError = ZeroDivisionError /\
      1360000 / 1 <= (-1200 / (2 * 1)) ^ 2 /\ omega s' = Some 0)))) /\
  (Double = Ideal -> OverflowError = ZeroDivisionError).
Proof.
  intros s s'.
  exact (update_parameters_raise_cases Double s (-1200) 1 1360000 2
           OverflowError s' overflowing_update_raises).
Defined.

(** X4.  As long as no call of [update_parameters] has returned, also
    after calls of it that raised and assigned [alpha], [omega] and [g0],
    [calculate_output] raises the [ValueError] of its guard and changes
    nothing. *)
Theorem calculate_output_needs_update (fm : floats) (s : attrs) (x : R) :
  reach fm Uninitialized s ->
  RecursiveConvolution.calculate_output fm x s =
  (Raise (ValueError not_initialized), s).
Proof.
  intros H. apply (reach_invariant fm Uninitialized) in H.
  apply calculate_output_uninitialized. now left.
Qed.

Lemma calculate_output_needs_update_witness :
  let s := half_updated 4 1 1 RecursiveConvolution.__init__ in
  reach Ideal Uninitialized s /\
  alpha s = Some (4 / (2 * 1)) /\
  RecursiveConvolution.calculate_output Ideal 1 s =
  (Raise (ValueError not_initialized), s).
Proof.
  intros s.
  assert (Hr : reach Ideal Uninitialized s).
  { apply (reach_update_raise Ideal Uninitialized
             RecursiveConvolution.__init__ 4 1 1 (1 / 60) ZeroDivisionError).
    - apply reach_new.
    - apply update_parameters_ideal_clamped; lra. }
  split; [exact Hr |]. split; [reflexivity |].
  exact (calculate_output_needs_update Ideal s 1 Hr).
Defined.

(** X5.  No method assigns [g2]: it is [None] in every state an instance
    can reach. *)
Theorem g2_stays_None (fm : floats) (l : lifecycle) (s : attrs) :
  reach fm l s -> g2 s = None.
Proof.
  induction 1 as [| l s b m k T s' _ IH Hup | l s b m k T e s' _ IH Hup
                  | l s x _ IH].
  - reflexivity.
  - apply update_parameters_returns_inv in Hup.
    destruct Hup as (_ & _ & ->). exact IH.
  - apply update_parameters_raise_frame in Hup.
    destruct Hup as (_ & _ & Hg & _). now rewrite Hg.
  - destruct (RecursiveConvolution.calculate_output fm x s)
      as [[y | e] s'] eqn:E; cbn [snd].
    + apply calculate_output_returns_inv in E.
      destruct E as (_ & _ & _ & _ & _ & _ & _ & _ & _ & _ & _ & ->).
      exact IH.
    + apply calculate_output_raise_frame in E. now subst.
Qed.

Lemma g2_stays_None_witness :
  reach Ideal Ready (demo Ideal) /\ g2 (demo Ideal) = None.
Proof.
  split; [apply demo_reach |].
  exact (g2_stays_None Ideal Ready (demo Ideal) (demo_reach Ideal)).
Defined.

(** ** The loop of the driver *)

Lemma for_each_acc fm xs acc s :
  for_each fm xs acc s =
  match for_each fm xs [] s with
  | (Return ys, s') => (Return (acc ++ ys), s')
  | (Raise e, s') => (Raise e, s')
  end.
Proof.
  revert acc s. induction xs as [| x xs IH]; intros acc s.
  - cbn [for_each ret]. now rewrite app_nil_r.
  - cbn [for_each]. unfold bind.
    destruct (RecursiveConvolution.calculate_output fm x s) as [[y | e] s1];
      [| reflexivity].
    rewrite (IH (acc ++ [y])), (IH ([] ++ [y])).
    destruct (for_each fm xs [] s1) as [[ys | e] s2]; [| reflexivity].
    now rewrite <- app_assoc.
Qed.

Lemma for_each_cons fm x xs s :
  for_each fm (x :: xs) [] s =
  match RecursiveConvolution.calculate_output fm x s with
  | (Return y, s1) =>
      match for_each fm xs [] s1 with
      | (Return ys, s2) => (Return (y :: ys), s2)
      | (Raise e, s2) => (Raise e, s2)
      end
  | (Raise e, s1) => (Raise e, s1)
  end.
Proof.
  cbn [for_each]. unfold bind.
  destruct (RecursiveConvolution.calculate_output fm x s) as [[y | e] s1];
    [| reflexivity].
  now rewrite for_each_acc.
Qed.

Lemma for_each_app fm xs zs s :
  for_each fm (xs ++ zs) [] s =
  match for_each fm xs [] s with
  | (Return ys, s1) =>
      match for_each fm zs [] s1 with
      | (Return ws, s2) => (Return (ys ++ ws), s2)
      | (Raise e, s2) => (Raise e, s2)
      end
  | (Raise e, s1) => (Raise e, s1)
  end.
Proof.
  revert s. induction xs as [| x xs IH]; intros s.
  - cbn [app for_each ret]. destruct (for_each fm zs [] s) as [[ws | e] s2];
      reflexivity.
  - rewrite <- app_comm_cons, !for_each_cons.
    destruct (RecursiveConvolution.calculate_output fm x s) as [[y | e] s1];
      [| reflexivity].
    rewrite IH. destruct (for_each fm xs [] s1) as [[ys | e] s2];
      [| reflexivity].
    destruct (for_each fm zs [] s2) as [[ws | e] s3]; reflexivity.
Qed.

(** The coefficients of two states are the same. *)
Lemma in_range_shift fm x y s : in_range fm s -> in_range fm (shift x y s).
Proof. intros H a w T. apply H. Qed.

Lemma for_each_returns fm xs s :
  ready s -> in_range fm s ->
  exists ys s',
    for_each fm xs [] s = (Return ys, s') /\
    List.length ys = List.length xs /\
    ready s' /\ in_range fm s' /\
    alpha s' = alpha s /\ omega s' = omega s /\ g0 s' = g0 s /\
    g1 s' = g1 s /\ g2 s' = g2 s /\ dt s' = dt s.
Proof.
  revert s. induction xs as [| x xs IH]; intros s Hr Hin.
  - exists [], s. cbn [for_each ret].
    split; [reflexivity |]. split; [reflexivity |].
    split; [exact Hr |]. split; [exact Hin |]. repeat split.
  - destruct Hr as (a & w & p & q & T & Ha & Hw & Hp & Hq & HT).
    destruct (Hin a w T Ha Hw HT) as (H1 & Hc & H2).
    pose proof (calculate_output_ok fm x s a w p q T Ha Hw Hp Hq HT H1 Hc H2)
      as Hrun. cbv zeta in Hrun.
    set (y := output a w p q T (prev_y1 s) (prev_y2 s) (prev_x s) x) in Hrun.
    destruct (IH (shift x y s)) as (ys & s' & Hloop & Hlen & Hr' & Hin' & E).
    { apply shift_ready. now exists a, w, p, q, T. }
    { now apply in_range_shift. }
    exists (y :: ys), s'. rewrite for_each_cons, Hrun, Hloop.
    split; [reflexivity |]. split; [cbn [List.length]; now rewrite Hlen |].
    split; [exact Hr' |]. split; [exact Hin' |]. exact E.
Qed.

Lemma in_range_ideal s : in_range Ideal s.
Proof. intros a w T _ _ _. repeat split. Qed.

(** X6.  A filter at rest stays at rest: on an initialised filter whose
    exponentials and cosine argument are within the range of the
    arithmetic (always so in real arithmetic) and whose history is zero,
    any number of zero inputs gives zero outputs and leaves every
    attribute as it was. *)
Theorem rest_stays_at_rest (fm : floats) (s : attrs) (n : nat) :
  reach fm Ready s -> in_range fm s ->
  prev_y1 s = 0 -> prev_y2 s = 0 -> prev_x s = 0 ->
  for_each fm (repeat 0 n) [] s = (Return (repeat 0 n), s).
Proof.
  intros Hr Hin Hy1 Hy2 Hx. apply reach_ready in Hr.
  destruct Hr as (a & w & p & q & T & Ha & Hw & Hp & Hq & HT).
  destruct (Hin a w T Ha Hw HT) as (H1 & Hc & H2).
  assert (Hone : RecursiveConvolution.calculate_output fm 0 s = (Return 0, s)).
  { rewrite (calculate_output_ok fm 0 s a w p q T) by assumption.
    rewrite Hy1, Hy2, Hx.
    replace (output a w p q T 0 0 0 0) with 0 by (unfold output; ring).
    f_equal. destruct s as [p0 q0 r0 a0 w0 y1 y2 x1 T0].
    cbn in Hy1, Hy2, Hx. subst. reflexivity. }
  induction n as [| n IH]; [reflexivity |].
  cbn [repeat]. now rewrite for_each_cons, Hone, IH.
Qed.

Lemma rest_stays_at_rest_witness :
  for_each Ideal (repeat 0 3) [] (demo Ideal) =
  (Return (repeat 0 3), demo Ideal).
Proof.
  apply (rest_stays_at_rest Ideal (demo Ideal) 3).
  - apply demo_reach.
  - apply in_range_ideal.
  - unfold demo. now rewrite demo_updated.
  - unfold demo. now rewrite demo_updated.
  - unfold demo. now rewrite demo_updated.
Defined.

(** X7.  The first sample after construction: when
    [update_parameters(b, m, k, dt)] has returned on a new instance and
    the exponentials and the cosine argument of the filter are within the
    range of the arithmetic (always so in real arithmetic), the first
    [calculate_output(x)] returns [dt·(b/m)·x]. *)
Theorem first_sample (fm : floats) (b m k T x : R) (s : attrs) :
  RecursiveConvolution.update_parameters fm b m k T
    RecursiveConvolution.__init__ = (Return tt, s) ->
  in_range fm s ->
  fst (RecursiveConvolution.calculate_output fm x s) = Return (T * (b / m) * x).
Proof.
  intros Hup Hin. apply update_parameters_returns_inv in Hup.
  destruct Hup as (_ & _ & ->).
  destruct (Hin _ _ _ eq_refl eq_refl eq_refl) as (H1 & Hc & H2).
  set (s := updated b m k T RecursiveConvolution.__init__) in *.
  rewrite (calculate_output_ok fm x s (b / (2 * m)) _ (b / m) _ T
             eq_refl eq_refl eq_refl eq_refl eq_refl H1 Hc H2).
  cbn [fst]. f_equal. unfold output, s, updated, RecursiveConvolution.__init__.
  cbn [prev_y1 prev_y2 prev_x]. ring.
Qed.

Lemma first_sample_witness :
  fst (RecursiveConvolution.calculate_output Ideal 1
         (updated 1 1 10 (1 / 1000) RecursiveConvolution.__init__)) =
  Return (1 / 1000 * (1 / 1) * 1).
Proof.
  apply (first_sample Ideal 1 1 10 (1 / 1000) 1).
  - apply demo_updated.
  - apply in_range_ideal.
Defined.

Lemma for_each_reach fm l xs acc s :
  reach fm l s -> reach fm l (snd (for_each fm xs acc s)).
Proof.
  revert acc s. induction xs as [| x xs IH]; intros acc s Hr; [exact Hr |].
  cbn [for_each]. unfold bind.
  pose proof (reach_advance fm l s x Hr) as Hr1.
  destruct (RecursiveConvolution.calculate_output fm x s) as [[y | e] s1];
    cbn [snd] in Hr1.
  - now apply IH.
  - exact Hr1.
Qed.

(** X8.  On an initialised filter whose exponentials and cosine argument
    are in range (always so in real arithmetic) the loop of the driver
    never raises: it gives one output per input, and it leaves [alpha],
    [omega], [g0], [g1] and [dt] as they were. *)
Theorem for_each_one_output_per_input (fm : floats) (xs : list R) (s : attrs) :
  reach fm Ready s -> in_range fm s ->
  exists ys s',
    for_each fm xs [] s = (Return ys, s') /\
    List.length ys = List.length xs /\
    reach fm Ready s' /\
    alpha s' = alpha s /\ omega s' = omega s /\ g0 s' = g0 s /\
    g1 s' = g1 s /\ dt s' = dt s.
Proof.
  intros Hr Hin.
  destruct (for_each_returns fm xs s (reach_ready _ _ Hr) Hin)
    as (ys & s' & Hloop & Hlen & _ & _ & Ha & Hw & Hp & Hq & _ & HT).
  exists ys, s'. split; [exact Hloop |]. split; [exact Hlen |].
  split.
  - pose proof (for_each_reach fm Ready xs [] s Hr) as H.
    now rewrite Hloop in H.
  - now repeat split.
Qed.

Lemma for_each_one_output_per_input_witness :
  exists ys s',
    for_each Ideal [1; 1; 1] [] (demo Ideal) = (Return ys, s') /\
    List.length ys = List.length [1; 1; 1] /\
    reach Ideal Ready s' /\
    alpha s' = alpha (demo Ideal) /\ omega s' = omega (demo Ideal) /\
    g0 s' = g0 (demo Ideal) /\ g1 s' = g1 (demo Ideal) /\
    dt s' = dt (demo Ideal).
Proof.
  apply (for_each_one_output_per_input Ideal [1; 1; 1] (demo Ideal)).
  - apply demo_reach.
  - apply in_range_ideal.
Defined.

(** X9.  The script of [RecursiveConvolution.py] in real arithmetic: for
    parameters with [m ≠ 0] and [k/m > (b/(2·m))²] and every number of
    points it reaches the plot, and the two lists it plots,
    [time_points] and [unit_step_output], both have [num_points]
    elements. *)
Theorem main_plots_equal_lengths (b m k T : R) (num_points : nat) :
  m <> 0 -> (b / (2 * m)) ^ 2 < k / m ->
  exists time_points unit_step_output s',
    main Ideal b m k T num_points RecursiveConvolution.__init__ =
    (Return (time_points, unit_step_output), s') /\
    List.length time_points = num_points /\
    List.length unit_step_output = num_points.
Proof.
  intros Hm Hlt. unfold main. unfold bind at 1.
  rewrite update_parameters_ideal_ok by assumption.
  set (s := updated b m k T RecursiveConvolution.__init__).
  destruct (for_each_returns Ideal (map (fun _ => 1) (range num_points)) s
              (updated_ready _ _ _ _ _) (in_range_ideal s))
    as (ys & s' & Hloop & Hlen & _).
  unfold bind. rewrite Hloop. cbn [ret].
  exists (map (fun n => INR n * T) (range num_points)), ys, s'.
  split; [reflexivity |].
  unfold range in *. rewrite length_map, length_seq in *. now split.
Qed.

Lemma main_plots_equal_lengths_witness :
  exists time_points unit_step_output s',
    main Ideal 1 1 10 (1 / 1000) 100 RecursiveConvolution.__init__ =
    (Return (time_points, unit_step_output), s') /\
    List.length time_points = 100%nat /\
    List.length unit_step_output = 100%nat.
Proof.
  apply (main_plots_equal_lengths 1 1 10 (1 / 1000) 100); lra.
Defined.

(** X10.  History after the loop: when the loop has returned on inputs
    that end with [x1, x2], the outputs end with two values [y1, y2], and
    the filter holds [prev_x = x2], [prev_y1 = y2] and [prev_y2 = y1]. *)
Theorem for_each_history (fm : floats) (xs : list R) (x1 x2 : R)
    (s : attrs) (ys : list R) (s' : attrs) :
  for_each fm (xs ++ [x1; x2]) [] s = (Return ys, s') ->
  exists ys0 y1 y2,
    ys = ys0 ++ [y1; y2] /\
    prev_x s' = x2 /\ prev_y1 s' = y2 /\ prev_y2 s' = y1.
Proof.
  rewrite for_each_app.
  destruct (for_each fm xs [] s) as [[ys0 | e] s0]; [| discriminate].
  rewrite for_each_cons.
  destruct (RecursiveConvolution.calculate_output fm x1 s0)
    as [[y1 | e] s1] eqn:E1; [| discriminate].
  rewrite for_each_cons.
  destruct (RecursiveConvolution.calculate_output fm x2 s1)
    as [[y2 | e] s2] eqn:E2; [| discriminate].
  cbn [for_each ret]. intros H. injection H as <- <-.
  apply calculate_output_returns_inv in E1, E2.
  destruct E1 as (_ & _ & _ & _ & _ & _ & _ & _ & _ & _ & _ & ->).
  destruct E2 as (_ & _ & _ & _ & _ & _ & _ & _ & _ & _ & _ & ->).
  exists ys0, y1, y2. repeat split.
Qed.

Lemma for_each_history_witness :
  exists ys s' ys0 y1 y2,
    for_each Ideal ([1] ++ [1; 1]) [] (demo Ideal) = (Return ys, s') /\
    ys = ys0 ++ [y1; y2] /\
    prev_x s' = 1 /\ prev_y1 s' = y2 /\ prev_y2 s' = y1.
Proof.
  destruct (for_each_returns Ideal ([1] ++ [1; 1]) (demo Ideal)
              (reach_ready _ _ (demo_reach Ideal)) (in_range_ideal _))
    as (ys & s' & Hloop & _).
  destruct (for_each_history Ideal [1] 1 1 (demo Ideal) ys s' Hloop)
    as (ys0 & y1 & y2 & H).
  exists ys, s', ys0, y1, y2. split; [exact Hloop | exact H].
Defined.

(** X11.  The filter is causal and its runs compose: when the loop
    returns on [xs ++ zs], it returns on [xs] alone, the outputs for [xs]
    are the first outputs of the longer run, and the rest of the outputs
    are those of the loop on [zs] continued from the state after [xs]. *)
Theorem for_each_prefix (fm : floats) (xs zs : list R) (s : attrs)
    (out : list R) (s2 : attrs) :
  for_each fm (xs ++ zs) [] s = (Return out, s2) ->
  exists ys ws s1,
    for_each fm xs [] s = (Return ys, s1) /\
    for_each fm zs [] s1 = (Return ws, s2) /\
    out = ys ++ ws /\
    firstn (List.length xs) out = ys.
Proof.
  rewrite for_each_app.
  destruct (for_each fm xs [] s) as [[ys | e] s1] eqn:E1; [| discriminate].
  destruct (for_each fm zs [] s1) as [[ws | e] s3] eqn:E2; [| discriminate].
  intros H. injection H as <- <-.
  exists ys, ws, s1. split; [reflexivity |]. split; [exact E2 |].
  split; [reflexivity |].
  assert (Hlen : List.length ys = List.length xs).
  { clear E2. revert s ys s1 E1. induction xs as [| x xs IH]; intros s ys s1.
    - cbn [for_each ret]. intros H. now injection H as <- _.
    - rewrite for_each_cons.
      destruct (RecursiveConvolution.calculate_output fm x s)
        as [[y | e] s0]; [| discriminate].
      destruct (for_each fm xs [] s0) as [[ys' | e] s0'] eqn:E;
        [| discriminate].
      intros H. injection H as <- _. cbn [List.length].
      now rewrite (IH _ _ _ E). }
  rewrite <- Hlen, firstn_app, Nat.sub_diag, firstn_all. cbn [firstn].
  apply app_nil_r.
Qed.

Lemma for_each_prefix_witness :
  exists out s2 ys ws s1,
    for_each Ideal ([1; 1] ++ [0]) [] (demo Ideal) = (Return out, s2) /\
    for_each Ideal [1; 1] [] (demo Ideal) = (Return ys, s1) /\
    for_each Ideal [0] [] s1 = (Return ws, s2) /\
    out = ys ++ ws /\
    firstn (List.length [1; 1]) out = ys.
Proof.
  destruct (for_each_returns Ideal ([1; 1] ++ [0]) (demo Ideal)
              (reach_ready _ _ (demo_reach Ideal)) (in_range_ideal _))
    as (out & s2 & Hloop & _).
  destruct (for_each_prefix Ideal [1; 1] [0] (demo Ideal) out s2 Hloop)
    as (ys & ws & s1 & H).
  exists out, s2, ys, ws, s1. split; [exact Hloop | exact H].
Defined.

(** One sample is linear in the history and the input together. *)
Lemma output_linear a w p q T c d y1 y2 x1 x y1' y2' x1' x' :
  output a w p q T (c * y1 + d * y1') (c * y2 + d * y2') (c * x1 + d * x1')
    (c * x + d * x') =
  c * output a w p q T y1 y2 x1 x + d * output a w p q T y1' y2' x1' x'.
Proof. unfold output. ring. Qed.

Lemma superposition_from (c d a w p q T : R) (xs1 xs2 : list R) :
  forall s1 s2 s3,
    List.length xs1 = List.length xs2 ->
    (alpha s1 = Some a /\ omega s1 = Some w /\ g0 s1 = Some p /\
     g1 s1 = Some q /\ dt s1 = Some T) ->
    (alpha s2 = Some a /\ omega s2 = Some w /\ g0 s2 = Some p /\
     g1 s2 = Some q /\ dt s2 = Some T) ->
    (alpha s3 = Some a /\ omega s3 = Some w /\ g0 s3 = Some p /\
     g1 s3 = Some q /\ dt s3 = Some T) ->
    prev_y1 s3 = c * prev_y1 s1 + d * prev_y1 s2 ->
    prev_y2 s3 = c * prev_y2 s1 + d * prev_y2 s2 ->
    prev_x s3 = c * prev_x s1 + d * prev_x s2 ->
    exists ys1 ys2 s1' s2' s3',
      for_each Ideal xs1 [] s1 = (Return ys1, s1') /\
      for_each Ideal xs2 [] s2 = (Return ys2, s2') /\
      for_each Ideal
        (map (fun uv => c * fst uv + d * snd uv) (combine xs1 xs2)) [] s3 =
      (Return (map (fun uv => c * fst uv + d * snd uv) (combine ys1 ys2)),
       s3').
Proof.
  revert xs2. induction xs1 as [| x1 xs1 IH]; intros [| x2 xs2];
    intros s1 s2 s3 Hlen C1 C2 C3 Hy1 Hy2 Hx; try discriminate Hlen.
  - exists [], [], s1, s2, s3. repeat split.
  - destruct C1 as (A1 & W1 & P1 & Q1 & T1).
    destruct C2 as (A2 & W2 & P2 & Q2 & T2).
    destruct C3 as (A3 & W3 & P3 & Q3 & T3).
    pose proof (calculate_output_ok Ideal x1 s1 a w p q T A1 W1 P1 Q1 T1
                  eq_refl eq_refl eq_refl) as R1.
    pose proof (calculate_output_ok Ideal x2 s2 a w p q T A2 W2 P2 Q2 T2
                  eq_refl eq_refl eq_refl) as R2.
    pose proof (calculate_output_ok Ideal (c * x1 + d * x2) s3 a w p q T
                  A3 W3 P3 Q3 T3 eq_refl eq_refl eq_refl) as R3.
    cbv zeta in R1, R2, R3.
    rewrite Hy1, Hy2, Hx, output_linear in R3.
    set (y1 := output a w p q T (prev_y1 s1) (prev_y2 s1) (prev_x s1) x1) in *.
    set (y2 := output a w p q T (prev_y1 s2) (prev_y2 s2) (prev_x s2) x2) in *.
    destruct (IH xs2 (shift x1 y1 s1) (shift x2 y2 s2)
                (shift (c * x1 + d * x2) (c * y1 + d * y2) s3))
      as (ys1 & ys2 & s1' & s2' & s3' & L1 & L2 & L3);
      try (cbn [alpha omega g0 g1 dt prev_y1 prev_y2 prev_x shift];
           tauto || reflexivity || assumption).
    { now injection Hlen. }
    exists (y1 :: ys1), (y2 :: ys2), s1', s2', s3'.
    rewrite !for_each_cons, R1, R2, L1, L2.
    split; [reflexivity |]. split; [reflexivity |].
    cbn [combine map fst snd]. now rewrite for_each_cons, R3, L3.
Qed.

(** X12.  Superposition.  In real arithmetic, from an initialised filter
    with zero history, the response to the combination [c·u + d·v] of two
    input sequences of equal length is the same combination of the
    responses to [u] and to [v]. *)
Theorem superposition (c d : R) (xs1 xs2 : list R) (s : attrs) :
  reach Ideal Ready s ->
  prev_y1 s = 0 -> prev_y2 s = 0 -> prev_x s = 0 ->
  List.length xs1 = List.length xs2 ->
  exists ys1 ys2 s1 s2 s3,
    for_each Ideal xs1 [] s = (Return ys1, s1) /\
    for_each Ideal xs2 [] s = (Return ys2, s2) /\
    for_each Ideal
      (map (fun uv => c * fst uv + d * snd uv) (combine xs1 xs2)) [] s =
    (Return (map (fun uv => c * fst uv + d * snd uv) (combine ys1 ys2)), s3).
Proof.
  intros Hr Hy1 Hy2 Hx Hlen.
  destruct (reach_ready _ _ Hr) as (a & w & p & q & T & H).
  apply (superposition_from c d a w p q T xs1 xs2 s s s Hlen H H H).
  - rewrite Hy1. ring.
  - rewrite Hy2. ring.
  - rewrite Hx. ring.
Qed.

Lemma superposition_witness :
  exists ys1 ys2 s1 s2 s3,
    for_each Ideal [1; 1] [] (demo Ideal) = (Return ys1, s1) /\
    for_each Ideal [0; 1] [] (demo Ideal) = (Return ys2, s2) /\
    for_each Ideal
      (map (fun uv => 2 * fst uv + 3 * snd uv) (combine [1; 1] [0; 1])) []
      (demo Ideal) =
    (Return (map (fun uv => 2 * fst uv + 3 * snd uv) (combine ys1 ys2)), s3).
Proof.
  apply (superposition 2 3 [1; 1] [0; 1] (demo Ideal)).
  - apply demo_reach.
  - unfold demo. now rewrite demo_updated.
  - unfold demo. now rewrite demo_updated.
  - unfold demo. now rewrite demo_updated.
  - reflexivity.
Defined.

(** * The geometry of [cart.py] *)

(** ** Vectors *)

Lemma vector_eq (u v : Vector2.t) :
  Vector2.x u = Vector2.x v -> Vector2.y u = Vector2.y v -> u = v.
Proof.
  destruct u, v. cbn [Vector2.x Vector2.y]. now intros -> ->.
Qed.

Lemma vector_length_zero (u : Vector2.t) :
  Vector2.length u = 0 <-> (Vector2.x u = 0 /\ Vector2.y u = 0).
Proof.
  unfold Vector2.length. split.
  - intros H. apply sqrt_eq_0 in H; [| nra]. split; nra.
  - intros [-> ->]. replace (0 * 0 + 0 * 0) with 0 by ring. apply sqrt_0.
Qed.

Lemma vector_sub_zero (p q : Vector2.t) :
  Vector2.length (Vector2.sub q p) = 0 <-> p = q.
Proof.
  rewrite vector_length_zero. cbn [Vector2.sub Vector2.x Vector2.y]. split.
  - intros [Hx Hy]. apply vector_eq; lra.
  - intros ->. split; ring.
Qed.

Lemma normalize_ip_returns (u : Vector2.t) :
  Vector2.length u <> 0 ->
  Vector2.normalize_ip u =
  Return (Vector2.mk (Vector2.x u / Vector2.length u)
                     (Vector2.y u / Vector2.length u)).
Proof.
  intros H. unfold Vector2.normalize_ip.
  destruct (Req_dec_T (Vector2.length u) 0); [contradiction | reflexivity].
Qed.

Lemma normalized_unit (u : Vector2.t) :
  Vector2.length u <> 0 ->
  let l := Vector2.length u in
  Vector2.x u / l * (Vector2.x u / l) + Vector2.y u / l * (Vector2.y u / l) = 1.
Proof.
  intros H l.
  assert (Hsq : l * l = Vector2.x u * Vector2.x u + Vector2.y u * Vector2.y u).
  { unfold l, Vector2.length. apply sqrt_sqrt. nra. }
  fold l in H.
  replace (Vector2.x u / l * (Vector2.x u / l) +
           Vector2.y u / l * (Vector2.y u / l))
    with ((Vector2.x u * Vector2.x u + Vector2.y u * Vector2.y u) / (l * l))
    by (field; exact H).
  rewrite <- Hsq. field. exact H.
Qed.

Lemma overflows_mono (fm : floats) (u v : R) :
  Rabs v <= Rabs u -> overflows fm u = false -> overflows fm v = false.
Proof.
  destruct fm; [reflexivity |]. unfold overflows. intros Hle.
  destruct (Rle_dec DBL_OVERFLOW (Rabs u)); [discriminate |].
  destruct (Rle_dec DBL_OVERFLOW (Rabs v)); [lra | reflexivity].
Qed.

(** ** [Spring.draw] *)

Lemma spring_range_In (n i : Z) :
  In i (Spring.range n) <-> (0 <= i < n)%Z.
Proof.
  unfold Spring.range. rewrite in_map_iff. split.
  - intros (j & <- & Hj). apply in_seq in Hj. lia.
  - intros H. exists (Z.to_nat i). split; [lia |]. apply in_seq. lia.
Qed.

Lemma spring_range_length (n : Z) :
  List.length (Spring.range n) = Z.to_nat n.
Proof.
  unfold Spring.range. now rewrite length_map, length_seq.
Qed.

Lemma spring_angle_in_range (fm : floats) (n : Z) (t : R) :
  (0 < n)%Z -> 0 <= t <= 1 ->
  overflows fm (8 * IZR n) = false ->
  overflows fm (t * IZR n * PI * 2) = false.
Proof.
  intros Hn Ht. apply overflows_mono.
  assert (Hn' : 0 < IZR n) by now apply IZR_lt.
  pose proof PI_4. pose proof PI_RGT_0.
  assert (H1 : 0 <= t * IZR n <= IZR n) by nra.
  assert (H2 : 0 <= t * IZR n * PI <= IZR n * 4) by nra.
  rewrite !Rabs_pos_eq; nra.
Qed.

Lemma spring_point_returns (fm : floats) (self : Spring.t)
    (start direction perp : Vector2.t) (len : R) (i : Z) :
  (0 < Spring.num_coils self)%Z ->
  (0 <= i <= Spring.num_coils self * 20)%Z ->
  overflows fm (8 * IZR (Spring.num_coils self)) = false ->
  let t := IZR i / IZR (Spring.num_coils self * 20) in
  0 <= t <= 1 /\
  Spring.point fm self start direction perp len
    (Spring.num_coils self * 20) i =
  Return
    (Vector2.add
       (Vector2.add start (Vector2.scale direction (t * len)))
       (Vector2.scale perp
          (sin (t * IZR (Spring.num_coils self) * PI * 2) *
           Spring.amplitude self * (1 - Rabs (t - 1 / 2) * 2)))).
Proof.
  intros Hn Hi Hov t.
  assert (Hnp : 0 < IZR (Spring.num_coils self * 20))
    by (apply IZR_lt; lia).
  assert (Ht : 0 <= t <= 1).
  { unfold t. split.
    - apply Rmult_le_pos; [apply IZR_le; lia |].
      left. now apply Rinv_0_lt_compat.
    - apply Rmult_le_reg_r with (IZR (Spring.num_coils self * 20));
        [exact Hnp |].
      unfold Rdiv. rewrite Rmult_assoc, Rinv_l, Rmult_1_r, Rmult_1_l by lra.
      apply IZR_le. lia. }
  split; [exact Ht |].
  unfold Spring.point. rewrite py_truediv_ok by lra. cbn [and_then].
  fold t. unfold math_sin.
  rewrite (spring_angle_in_range fm _ t Hn Ht Hov). reflexivity.
Qed.

Lemma spring_loop_returns (fm : floats) (self : Spring.t)
    (start direction perp : Vector2.t) (len : R) (indices : list Z) :
  (0 < Spring.num_coils self)%Z ->
  overflows fm (8 * IZR (Spring.num_coils self)) = false ->
  (forall i, In i indices -> (0 <= i <= Spring.num_coils self * 20)%Z) ->
  forall acc,
  exists points,
    Spring.loop fm self start direction perp len
      (Spring.num_coils self * 20) indices acc = Return (acc ++ points) /\
    Forall2
      (fun i px =>
         exists p,
           Spring.point fm self start direction perp len
             (Spring.num_coils self * 20) i = Return p /\
           px = (py_int (Vector2.x p), py_int (Vector2.y p)))
      indices points.
Proof.
  intros Hn Hov. induction indices as [| i rest IH]; intros Hin acc.
  - exists []. cbn [Spring.loop]. rewrite app_nil_r. split; constructor.
  - destruct (spring_point_returns fm self start direction perp len i Hn
                (Hin i (or_introl eq_refl)) Hov) as [_ Hp].
    cbv zeta in Hp. cbn [Spring.loop]. rewrite Hp. cbn [and_then].
    match goal with
    | |- context [Spring.loop _ _ _ _ _ _ _ rest (acc ++ [?px])] =>
        destruct (IH (fun j Hj => Hin j (or_intror Hj)) (acc ++ [px]))
          as (points & Hloop & Hall);
        exists (px :: points)
    end.
    split.
    + rewrite Hloop, <- app_assoc. reflexivity.
    + constructor; [| exact Hall]. eexists. split; [exact Hp | reflexivity].
Qed.

(** X13.  [Spring.draw] draws nothing, and raises nothing, exactly when
    its two connection points coincide; the test comes before the
    division by the number of points, so this holds for every number of
    coils. *)
Theorem spring_draw_nothing_iff (fm : floats) (self : Spring.t)
    (pointA_pos pointB_pos : Vector2.t) :
  Spring.draw fm self pointA_pos pointB_pos = Return None <->
  pointA_pos = pointB_pos.
Proof.
  unfold Spring.draw.
  destruct (Req_dec_T (Vector2.length (Vector2.sub pointB_pos pointA_pos)) 0)
    as [Hz | Hnz].
  - split; [intros _; now apply vector_sub_zero | reflexivity].
  - split.
    + rewrite (normalize_ip_returns _ Hnz). cbn [and_then].
      match goal with
      | |- and_then ?l _ = _ -> _ => destruct l; cbn [and_then]; discriminate
      end.
    + intros H. apply vector_sub_zero in H. contradiction.
Qed.

(** X14.  With distinct connection points, a spring with no coils makes
    [Spring.draw] raise [ZeroDivisionError] (the loop runs once and
    divides by [num_points = 0]), and a negative number of coils makes it
    hand an empty list of points to [pygame.draw.lines]. *)
Theorem spring_draw_without_coils (fm : floats) (self : Spring.t)
    (pointA_pos pointB_pos : Vector2.t) :
  pointA_pos <> pointB_pos ->
  (Spring.num_coils self <= 0)%Z ->
  Spring.draw fm self pointA_pos pointB_pos =
  if (Spring.num_coils self =? 0)%Z then Raise ZeroDivisionError
  else Return (Some []).
Proof.
  intros Hne Hn. unfold Spring.draw.
  destruct (Req_dec_T (Vector2.length (Vector2.sub pointB_pos pointA_pos)) 0)
    as [Hz | Hnz]; [apply vector_sub_zero in Hz; contradiction |].
  rewrite (normalize_ip_returns _ Hnz). cbn [and_then].
  destruct (Z.eqb_spec (Spring.num_coils self) 0) as [H0 | H0].
  - rewrite H0. change (0 * 20 + 1)%Z with 1%Z. change (0 * 20)%Z with 0%Z.
    change (Spring.range 1) with [0%Z]. cbn [Spring.loop].
    unfold Spring.point. rewrite py_truediv_zero. reflexivity.
  - unfold Spring.range.
    replace (Z.to_nat (Spring.num_coils self * 20 + 1)) with 0%nat by lia.
    reflexivity.
Qed.

Lemma spring_draw_without_coils_witness :
  Spring.draw Ideal (Spring.mk 0 10) (Vector2.mk 0 0) (Vector2.mk 1 0) =
  Raise ZeroDivisionError.
Proof.
  apply (spring_draw_without_coils Ideal (Spring.mk 0 10)
           (Vector2.mk 0 0) (Vector2.mk 1 0)).
  - intros H. apply (f_equal Vector2.x) in H. cbn in H. lra.
  - cbn. lia.
Defined.

(** X15.  With distinct connection points and a positive number of coils
    (and [2·π·num_coils] within the range of the arithmetic)
    [Spring.draw] raises nothing and hands [20·num_coils + 1] points to
    [pygame.draw.lines]: one for each index, the point of that index
    truncated to integers. *)
Theorem spring_draw_points (fm : floats) (self : Spring.t)
    (pointA_pos pointB_pos : Vector2.t) :
  pointA_pos <> pointB_pos ->
  (0 < Spring.num_coils self)%Z ->
  overflows fm (8 * IZR (Spring.num_coils self)) = false ->
  exists direction points,
    Vector2.normalize_ip (Vector2.sub pointB_pos pointA_pos) =
    Return direction /\
    Spring.draw fm self pointA_pos pointB_pos = Return (Some points) /\
    List.length points = Z.to_nat (20 * Spring.num_coils self + 1) /\
    Forall2
      (fun i px =>
         exists p,
           Spring.point fm self pointA_pos direction
             (Vector2.mk (- Vector2.y direction) (Vector2.x direction))
             (Vector2.length (Vector2.sub pointB_pos pointA_pos))
             (Spring.num_coils self * 20) i = Return p /\
           px = (py_int (Vector2.x p), py_int (Vector2.y p)))
      (Spring.range (Spring.num_coils self * 20 + 1)) points.
Proof.
  intros Hne Hn Hov.
  assert (Hnz : Vector2.length (Vector2.sub pointB_pos pointA_pos) <> 0)
    by (intros H; apply vector_sub_zero in H; contradiction).
  set (d := Vector2.sub pointB_pos pointA_pos) in *.
  set (dir := Vector2.mk (Vector2.x d / Vector2.length d)
                         (Vector2.y d / Vector2.length d)).
  assert (Hin : forall i,
             In i (Spring.range (Spring.num_coils self * 20 + 1)) ->
             (0 <= i <= Spring.num_coils self * 20)%Z).
  { intros i Hi. apply spring_range_In in Hi. lia. }
  destruct (spring_loop_returns fm self pointA_pos dir
              (Vector2.mk (- Vector2.y dir) (Vector2.x dir))
              (Vector2.length d)
              (Spring.range (Spring.num_coils self * 20 + 1)) Hn Hov Hin [])
    as (points & Hloop & Hall).
  exists dir, points. split; [apply (normalize_ip_returns _ Hnz) |].
  split.
  - unfold Spring.draw. fold d.
    destruct (Req_dec_T (Vector2.length d) 0); [contradiction |].
    rewrite (normalize_ip_returns _ Hnz). cbn [and_then]. fold dir.
    rewrite Hloop. reflexivity.
  - split; [| exact Hall].
    rewrite <- (Forall2_length Hall), spring_range_length. f_equal. lia.
Qed.

Lemma spring_draw_points_witness :
  exists direction points,
    Vector2.normalize_ip (Vector2.sub (Vector2.mk 200 350) (Vector2.mk 350 350))
    = Return direction /\
    Spring.draw Ideal scene.spring_config (Vector2.mk 350 350)
      (Vector2.mk 200 350) = Return (Some points) /\
    List.length points = Z.to_nat (20 * 10 + 1) /\
    Forall2
      (fun i px =>
         exists p,
           Spring.point Ideal scene.spring_config (Vector2.mk 350 350) direction
             (Vector2.mk (- Vector2.y direction) (Vector2.x direction))
             (Vector2.length
                (Vector2.sub (Vector2.mk 200 350) (Vector2.mk 350 350)))
             (10 * 20) i = Return p /\
           px = (py_int (Vector2.x p), py_int (Vector2.y p)))
      (Spring.range (10 * 20 + 1)) points.
Proof.
  apply (spring_draw_points Ideal scene.spring_config (Vector2.mk 350 350)
           (Vector2.mk 200 350)).
  - intros H. apply (f_equal Vector2.x) in H. cbn in H. lra.
  - reflexivity.
  - reflexivity.
Defined.

Lemma product_below (a b c : R) :
  0 <= a <= 1 -> 0 <= b <= b -> 0 <= c <= 1 -> a * b * c <= b.
Proof.
  intros Ha Hb Hc.
  assert (H1 : a * b <= b) by nra.
  assert (H2 : 0 <= a * b) by nra.
  nra.
Qed.

Lemma taper_bound (t : R) :
  0 <= t <= 1 -> Rabs (1 - Rabs (t - 1 / 2) * 2) <= 1.
Proof.
  intros Ht.
  assert (H : 0 <= Rabs (t - 1 / 2) <= 1 / 2).
  { split; [apply Rabs_pos |]. apply Rabs_le. lra. }
  apply Rabs_le. lra.
Qed.

(** X16.  Every point the loop of [Spring.draw] computes, before its
    truncation to integers, lies on the segment from [pointA] to [pointB]
    displaced along the unit normal by at most the amplitude; the first
    point is [pointA] and, in real arithmetic, the last is [pointB]. *)
Theorem spring_point_near_axis (fm : floats) (self : Spring.t)
    (pointA_pos pointB_pos direction : Vector2.t) (i : Z) :
  Vector2.normalize_ip (Vector2.sub pointB_pos pointA_pos) = Return direction ->
  (0 < Spring.num_coils self)%Z ->
  (0 <= i <= Spring.num_coils self * 20)%Z ->
  overflows fm (8 * IZR (Spring.num_coils self)) = false ->
  let perp := Vector2.mk (- Vector2.y direction) (Vector2.x direction) in
  exists p t off,
    Spring.point fm self pointA_pos direction perp
      (Vector2.length (Vector2.sub pointB_pos pointA_pos))
      (Spring.num_coils self * 20) i = Return p /\
    0 <= t <= 1 /\ Rabs off <= Rabs (Spring.amplitude self) /\
    Vector2.x perp * Vector2.x perp + Vector2.y perp * Vector2.y perp = 1 /\
    Vector2.x p =
      Vector2.x pointA_pos + (Vector2.x pointB_pos - Vector2.x pointA_pos) * t
      + Vector2.x perp * off /\
    Vector2.y p =
      Vector2.y pointA_pos + (Vector2.y pointB_pos - Vector2.y pointA_pos) * t
      + Vector2.y perp * off /\
    (i = 0%Z -> p = pointA_pos) /\
    (i = (Spring.num_coils self * 20)%Z -> p = pointB_pos).
Proof.
  intros Hdir Hn Hi Hov perp.
  set (d := Vector2.sub pointB_pos pointA_pos) in *.
  set (len := Vector2.length d).
  assert (Hnz : len <> 0).
  { intros H. unfold Vector2.normalize_ip in Hdir. fold len in Hdir.
    destruct (Req_dec_T len 0); [discriminate | contradiction]. }
  rewrite (normalize_ip_returns _ Hnz) in Hdir. injection Hdir as <-.
  fold len in perp.
  destruct (spring_point_returns fm self pointA_pos
              (Vector2.mk (Vector2.x d / len) (Vector2.y d / len)) perp len i
              Hn Hi Hov) as [Ht Hp].
  cbv zeta in Hp.
  set (t := IZR i / IZR (Spring.num_coils self * 20)) in *.
  set (off := sin (t * IZR (Spring.num_coils self) * PI * 2) *
              Spring.amplitude self * (1 - Rabs (t - 1 / 2) * 2)) in *.
  assert (Hoff : Rabs off <= Rabs (Spring.amplitude self)).
  { unfold off. rewrite !Rabs_mult.
    assert (Hs : Rabs (sin (t * IZR (Spring.num_coils self) * PI * 2)) <= 1).
    { apply Rabs_le. apply SIN_bound. }
    assert (Htp : Rabs (1 - Rabs (t - 1 / 2) * 2) <= 1)
      by now apply taper_bound.
    apply product_below; split;
      solve [apply Rabs_pos | assumption | apply Rle_refl]. }
  eexists. exists t, off. split; [exact Hp |].
  split; [exact Ht |]. split; [exact Hoff |].
  cbn [Vector2.add Vector2.scale Vector2.x Vector2.y perp].
  split.
  { pose proof (normalized_unit d Hnz) as Hu. cbv zeta in Hu. fold len in Hu.
    rewrite <- Hu. unfold d. cbn [Vector2.sub Vector2.x Vector2.y]. ring. }
  unfold d. cbn [Vector2.sub Vector2.x Vector2.y].
  split; [field; exact Hnz |]. split; [field; exact Hnz |].
  split.
  - intros ->.
    assert (H0 : t = 0) by (unfold t; lra).
    assert (Hoff0 : off = 0).
    { unfold off. rewrite H0.
      replace (0 * IZR (Spring.num_coils self) * PI * 2) with 0 by ring.
      rewrite sin_0. ring. }
    apply vector_eq; unfold perp;
      cbn [Vector2.add Vector2.scale Vector2.x Vector2.y];
      rewrite Hoff0, H0; ring.
  - intros ->.
    assert (H1 : t = 1).
    { unfold t. field. apply not_eq_sym, Rlt_not_eq, IZR_lt. lia. }
    assert (H0 : off = 0).
    { unfold off. rewrite H1.
      replace (1 - 1 / 2) with (1 / 2) by lra.
      rewrite Rabs_pos_eq by lra.
      replace (1 - 1 / 2 * 2) with 0 by lra. ring. }
    apply vector_eq; unfold perp;
      cbn [Vector2.add Vector2.scale Vector2.x Vector2.y];
      rewrite H0, H1; field; exact Hnz.
Qed.

Lemma spring_point_near_axis_witness :
  exists direction p t off,
    Vector2.normalize_ip (Vector2.sub (Vector2.mk 200 350) (Vector2.mk 350 350))
    = Return direction /\
    Spring.point Ideal scene.spring_config (Vector2.mk 350 350) direction
      (Vector2.mk (- Vector2.y direction) (Vector2.x direction))
      (Vector2.length (Vector2.sub (Vector2.mk 200 350) (Vector2.mk 350 350)))
      (10 * 20) 200 = Return p /\
    0 <= t <= 1 /\ Rabs off <= Rabs 10 /\
    p = Vector2.mk 200 350.
Proof.
  assert (Hnz : Vector2.length
                  (Vector2.sub (Vector2.mk 200 350) (Vector2.mk 350 350)) <> 0).
  { intros H. apply vector_sub_zero in H. apply (f_equal Vector2.x) in H.
    cbn in H. lra. }
  assert (Hi : (0 <= 200 <= Spring.num_coils scene.spring_config * 20)%Z)
    by (cbn; lia).
  destruct (spring_point_near_axis Ideal scene.spring_config
              (Vector2.mk 350 350) (Vector2.mk 200 350) _ 200
              (normalize_ip_returns _ Hnz) eq_refl Hi eq_refl)
    as (p & t & off & Hp & Ht & Hoff & _ & _ & _ & _ & Hlast).
  eexists. exists p, t, off.
  split; [exact (normalize_ip_returns _ Hnz) |]. split; [exact Hp |].
  split; [exact Ht |]. split; [exact Hoff |]. now apply Hlast.
Defined.

(** ** Connection points, carts and the connector box *)

Lemma connection_point_init_attached (p o : Vector2.t) :
  attached p (ConnectionPoint.__init__ p o).
Proof. reflexivity. Qed.

Lemma connection_point_update_attached (p : Vector2.t) (cp : ConnectionPoint.t) :
  attached p (ConnectionPoint.update p cp).
Proof. reflexivity. Qed.

(** X17.  A connection point that is attached to its parent at position
    [p] records, at its next [update], exactly the parent's movement
    [p' − p] as its displacement and is attached at [p']; a further
    [update] without a movement of the parent records the zero
    displacement. *)
Theorem connection_point_tracks (p p' : Vector2.t) (cp : ConnectionPoint.t) :
  attached p cp ->
  let cp' := ConnectionPoint.update p' cp in
  attached p' cp' /\
  ConnectionPoint.offset cp' = ConnectionPoint.offset cp /\
  ConnectionPoint.displacement cp' = Vector2.sub p' p /\
  ConnectionPoint.displacement (ConnectionPoint.update p' cp') = Vector2.mk 0 0.
Proof.
  intros H cp'. unfold attached in *. split; [reflexivity |].
  split; [reflexivity |]. split.
  - unfold cp', ConnectionPoint.update.
    cbn [ConnectionPoint.displacement]. rewrite H.
    apply vector_eq; cbn [Vector2.add Vector2.sub Vector2.x Vector2.y]; ring.
  - unfold cp', ConnectionPoint.update.
    cbn [ConnectionPoint.displacement ConnectionPoint.pos
         ConnectionPoint.offset].
    apply vector_eq; cbn [Vector2.add Vector2.sub Vector2.x Vector2.y]; ring.
Qed.

Lemma connection_point_tracks_witness :
  let cp := ConnectionPoint.__init__ (Vector2.mk 400 300) (Vector2.mk (-200) 50) in
  let cp' := ConnectionPoint.update (Vector2.mk 410 300) cp in
  attached (Vector2.mk 410 300) cp' /\
  ConnectionPoint.offset cp' = ConnectionPoint.offset cp /\
  ConnectionPoint.displacement cp' =
    Vector2.sub (Vector2.mk 410 300) (Vector2.mk 400 300) /\
  ConnectionPoint.displacement
    (ConnectionPoint.update (Vector2.mk 410 300) cp') = Vector2.mk 0 0.
Proof.
  intros cp.
  apply (connection_point_tracks (Vector2.mk 400 300) (Vector2.mk 410 300) cp).
  apply connection_point_init_attached.
Defined.

(** X18.  [Cart.update] carries the connection points along.  For a cart
    in sync whose position has been set to [p] (as the main loop does)
    and which is then updated by [d]: the cart is at [p + d], both
    connection points are attached to it with their offsets unchanged,
    and both record the whole movement since the last update,
    [p + d − pos], as their displacement. *)
Theorem cart_update_carries_points (p d : Vector2.t) (c : Cart.t) :
  cart_in_sync c ->
  let c' := Cart.update d (Cart.set_pos p c) in
  Cart.pos c' = Vector2.add p d /\
  cart_in_sync c' /\
  ConnectionPoint.offset (Cart.spring_connection c') =
    ConnectionPoint.offset (Cart.spring_connection c) /\
  ConnectionPoint.offset (Cart.connector_connection c') =
    ConnectionPoint.offset (Cart.connector_connection c) /\
  ConnectionPoint.displacement (Cart.spring_connection c') =
    Vector2.sub (Vector2.add p d) (Cart.pos c) /\
  ConnectionPoint.displacement (Cart.connector_connection c') =
    Vector2.sub (Vector2.add p d) (Cart.pos c).
Proof.
  intros [Hs Hc] c'. unfold c', Cart.update, Cart.set_pos.
  cbn [Cart.pos Cart.spring_connection Cart.connector_connection].
  split; [reflexivity |]. split; [split; reflexivity |].
  split; [reflexivity |]. split; [reflexivity |].
  split.
  - apply (connection_point_tracks _ (Vector2.add p d) _ Hs).
  - apply (connection_point_tracks _ (Vector2.add p d) _ Hc).
Qed.

Lemma cart_init_in_sync pos width height color so co :
  cart_in_sync (Cart.__init__ pos width height color so co).
Proof. split; reflexivity. Qed.

Lemma cart_update_carries_points_witness :
  let c :=
    Cart.__init__ (Vector2.mk 400 300) 400 200 (0, 0, 255)%Z
      (Vector2.mk (-200) 50) (Vector2.mk 200 20) in
  let c' := Cart.update (Vector2.mk 0 0) (Cart.set_pos (Vector2.mk 405 300) c) in
  Cart.pos c' = Vector2.add (Vector2.mk 405 300) (Vector2.mk 0 0) /\
  cart_in_sync c' /\
  ConnectionPoint.offset (Cart.spring_connection c') =
    ConnectionPoint.offset (Cart.spring_connection c) /\
  ConnectionPoint.offset (Cart.connector_connection c') =
    ConnectionPoint.offset (Cart.connector_connection c) /\
  ConnectionPoint.displacement (Cart.spring_connection c') =
    Vector2.sub (Vector2.add (Vector2.mk 405 300) (Vector2.mk 0 0)) (Cart.pos c) /\
  ConnectionPoint.displacement (Cart.connector_connection c') =
    Vector2.sub (Vector2.add (Vector2.mk 405 300) (Vector2.mk 0 0)) (Cart.pos c).
Proof.
  intros c.
  apply (cart_update_carries_points (Vector2.mk 405 300) (Vector2.mk 0 0) c).
  apply cart_init_in_sync.
Defined.

(** X19.  After [ConnectorBox.update] both contacts of the box are at one
    height, [pos.y − height/2 + contact_y_proportion·height], each at its
    own horizontal offset from the box.  Because the update overrides the
    height after the contact recorded its displacement, a second update of
    a box that has not moved records for a contact the vertical
    displacement [offset.y − (contact_y_proportion − 1/2)·height], which is
    not zero in general, and the horizontal displacement zero. *)
Theorem connector_box_update_levels (b : ConnectorBox.t) :
  let b1 := ConnectorBox.update b in
  let b2 := ConnectorBox.update b1 in
  let level :=
    Vector2.y (ConnectorBox.pos b) - ConnectorBox.height b / 2 +
    ConnectorBox.contact_y_proportion b * ConnectorBox.height b in
  ConnectorBox.pos b1 = ConnectorBox.pos b /\
  ConnectionPoint.pos (ConnectorBox.outer_connection b1) =
    Vector2.mk
      (Vector2.x (ConnectorBox.pos b) +
       Vector2.x (ConnectionPoint.offset (ConnectorBox.outer_connection b)))
      level /\
  ConnectionPoint.pos (ConnectorBox.inner_connection b1) =
    Vector2.mk
      (Vector2.x (ConnectorBox.pos b) +
       Vector2.x (ConnectionPoint.offset (ConnectorBox.inner_connection b)))
      level /\
  ConnectionPoint.displacement (ConnectorBox.outer_connection b2) =
    Vector2.mk 0
      (Vector2.y (ConnectionPoint.offset (ConnectorBox.outer_connection b)) -
       (ConnectorBox.contact_y_proportion b - 1 / 2) * ConnectorBox.height b) /\
  ConnectionPoint.displacement (ConnectorBox.inner_connection b2) =
    Vector2.mk 0
      (Vector2.y (ConnectionPoint.offset (ConnectorBox.inner_connection b)) -
       (ConnectorBox.contact_y_proportion b - 1 / 2) * ConnectorBox.height b).
Proof.
  intros b1 b2 level. unfold b2, b1, level.
  unfold ConnectorBox.update, ConnectorBox.at_height, ConnectionPoint.update.
  cbn [ConnectorBox.pos ConnectorBox.outer_connection
       ConnectorBox.inner_connection ConnectorBox.height
       ConnectorBox.contact_y_proportion ConnectionPoint.pos
       ConnectionPoint.offset ConnectionPoint.displacement
       Vector2.add Vector2.sub Vector2.x Vector2.y].
  repeat split; try reflexivity;
    apply vector_eq;
    cbn [Vector2.add Vector2.sub Vector2.x Vector2.y]; field.
Qed.

(** ** The main loop of [cart.py] *)

Lemma conv0_in_range (fm : floats) :
  in_range fm (updated 185 500 1500 (1 / 60) RecursiveConvolution.__init__).
Proof.
  intros a w T Ha Hw HT. unfold updated in Ha, Hw, HT.
  cbn [alpha omega dt] in Ha, Hw, HT.
  injection Ha as <-. injection Hw as <-. injection HT as <-.
  split; [apply exp_600_no_overflow; lra |].
  split; [apply (angle_no_overflow fm _ 3); lra |].
  apply exp_600_no_overflow; lra.
Qed.

Lemma conv0_updated (fm : floats) :
  cart.update_parameters fm 185 500 1500 (1 / 60) cart.__init__ =
  (Return tt, updated 185 500 1500 (1 / 60) RecursiveConvolution.__init__).
Proof.
  rewrite cart_update_parameters_eq.
  apply update_parameters_ok; try lra.
  - apply const_no_overflow. rewrite Rabs_pos_eq; lra.
  - apply exp_600_no_overflow. lra.
  - apply (angle_no_overflow fm _ 3); lra.
  - apply const_no_overflow. rewrite Rabs_pos_eq; lra.
Qed.

Lemma same_coefficients_ready s s0 :
  same_coefficients s s0 -> ready s0 -> ready s.
Proof.
  intros (Ha & Hw & Hp & Hq & HT) (a & w & p & q & T & H).
  exists a, w, p, q, T. rewrite Ha, Hw, Hp, Hq, HT. exact H.
Qed.

Lemma same_coefficients_in_range fm s s0 :
  same_coefficients s s0 -> in_range fm s0 -> in_range fm s.
Proof.
  intros (Ha & Hw & _ & _ & HT) H a w T. rewrite Ha, Hw, HT. apply H.
Qed.

Lemma calculate_output_at_rest fm s :
  ready s -> in_range fm s ->
  prev_y1 s = 0 -> prev_y2 s = 0 -> prev_x s = 0 ->
  RecursiveConvolution.calculate_output fm 0 s = (Return 0, s).
Proof.
  intros (a & w & p & q & T & Ha & Hw & Hp & Hq & HT) Hin Hy1 Hy2 Hx.
  destruct (Hin a w T Ha Hw HT) as (H1 & Hc & H2).
  rewrite (calculate_output_ok fm 0 s a w p q T) by assumption.
  rewrite Hy1, Hy2, Hx.
  replace (output a w p q T 0 0 0 0) with 0 by (unfold output; ring).
  f_equal. destruct s as [p0 q0 r0 a0 w0 y1 y2 x1 T0].
  cbn in Hy1, Hy2, Hx. subst. reflexivity.
Qed.

Lemma spring_config_draw_returns (fm : floats) (pA pB : Vector2.t) :
  exists r, Spring.draw fm scene.spring_config pA pB = Return r.
Proof.
  unfold Spring.draw.
  destruct (Req_dec_T (Vector2.length (Vector2.sub pB pA)) 0) as [Hz | Hnz].
  - now exists None.
  - rewrite (normalize_ip_returns _ Hnz). cbn [and_then].
    assert (Hov : overflows fm (8 * IZR (Spring.num_coils scene.spring_config))
                  = false).
    { apply const_no_overflow. cbn [scene.spring_config Spring.num_coils].
      rewrite Rabs_pos_eq; lra. }
    assert (Hin : forall i,
               In i (Spring.range
                       (Spring.num_coils scene.spring_config * 20 + 1)) ->
               (0 <= i <= Spring.num_coils scene.spring_config * 20)%Z).
    { intros i Hi. apply spring_range_In in Hi. lia. }
    match goal with
    | |- context [Spring.loop fm _ ?st ?dir ?perp ?len _ _ []] =>
        destruct (spring_loop_returns fm scene.spring_config st dir perp len
                    _ eq_refl Hov Hin []) as (points & Hloop & _)
    end.
    rewrite Hloop. cbn [and_then]. now eexists.
Qed.

(** The horizontal velocity the keys select. *)
Lemma key_velocity_bound (i : scene.input) :
  Rabs ((if scene.K_LEFT i then - scene.cart_speed
         else if scene.K_RIGHT i then scene.cart_speed else 0) * (1 / 60))
  <= 5 / 3.
Proof.
  unfold scene.cart_speed. apply Rabs_le.
  destruct (scene.K_LEFT i), (scene.K_RIGHT i); split; lra.
Qed.

Lemma frame_spec (fm : floats) (i : scene.input) (w : scene.world) :
  scene_invariant w ->
  exists y w',
    scene.frame fm i w = Return w' /\
    scene_invariant w' /\
    inner_leg_fixed w' /\
    scene.running w' = (if scene.QUIT i then false else scene.running w) /\
    Vector2.x (Cart.pos (scene.outer_cart w')) =
      Vector2.x (Cart.pos (scene.outer_cart w)) +
      (if scene.K_LEFT i then - scene.cart_speed
       else if scene.K_RIGHT i then scene.cart_speed else 0) * (1 / 60) /\
    RecursiveConvolution.calculate_output fm
      (Vector2.x (Cart.pos (scene.outer_cart w')) - 400) (scene.conv w) =
      (Return y, scene.conv w') /\
    scene.outer_cart_displacement w' =
      Vector2.sub (Cart.pos (scene.outer_cart w')) (Vector2.mk 400 300).
Proof.
  intros (Hco & Hsp & [Hos Hoc] & [His Hic] & Oos & Ooc & Ois & Oic &
          Hyo & Hyi & Hvy & Bi & Bo & Bp & Bh & Hcx & Hpx).
  set (vx := if scene.K_LEFT i then - scene.cart_speed
             else if scene.K_RIGHT i then scene.cart_speed else 0).
  set (dx := Vector2.x (Cart.pos (scene.outer_cart w)) + vx * (1 / 60) - 400).
  pose proof (same_coefficients_ready _ _ Hco (updated_ready _ _ _ _ _)) as Hr.
  pose proof (same_coefficients_in_range fm _ _ Hco (conv0_in_range fm)) as Hin.
  destruct Hr as (a & om & p & q & T & Ha & Hw & Hp & Hq & HT).
  destruct (Hin a om T Ha Hw HT) as (H1 & Hc & H2).
  pose proof (calculate_output_ok fm dx (scene.conv w) a om p q T
                Ha Hw Hp Hq HT H1 Hc H2) as Hrun. cbv zeta in Hrun.
  set (y := output a om p q T (prev_y1 (scene.conv w))
              (prev_y2 (scene.conv w)) (prev_x (scene.conv w)) dx) in Hrun.
  unfold scene.frame. fold vx.
  change (cart.calculate_output fm) with
    (RecursiveConvolution.calculate_output fm).
  cbn [Cart.set_pos Cart.pos Vector2.add Vector2.sub Vector2.scale
       Vector2.x Vector2.y scene.outer_cart_config cfg_pos].
  fold dx. rewrite Hrun. rewrite Hsp.
  match goal with
  | |- context [Spring.draw fm scene.spring_config ?pA ?pB] =>
      destruct (spring_config_draw_returns fm pA pB) as [r Hdraw];
      rewrite Hdraw
  end.
  cbn [and_then]. eexists y, _. split; [reflexivity |].
  unfold scene_invariant, inner_leg_fixed, cart_in_sync, attached,
    same_coefficients in *.
  cbn [scene.conv scene.spring scene.outer_cart scene.inner_cart
       scene.connector_box scene.outer_cart_velocity
       scene.outer_cart_displacement scene.running
       fst ConnectorBox.draw ConnectorBox.update ConnectorBox.set_pos
       ConnectorBox.at_height ConnectorBox.pos ConnectorBox.height
       ConnectorBox.contact_y_proportion ConnectorBox.inner_connection
       ConnectorBox.outer_connection
       Cart.update Cart.set_pos Cart.pos Cart.spring_connection
       Cart.connector_connection
       ConnectionPoint.update ConnectionPoint.pos ConnectionPoint.offset
       Vector2.add Vector2.sub Vector2.scale Vector2.x Vector2.y
       shift alpha omega g0 g1 dt prev_y1 prev_x
       scene.connector_box_config scene.inner_cart_config
       scene.outer_cart_config cfg_fixed_leg_length cfg_contact_offset_inner
       cfg_contact_offset_outer cfg_pos cfg_spring_contact_offset
       cfg_connector_contact_offset].
  rewrite Bi, Bp, Bh, Oic, Hvy.
  cbn [scene.connector_box_config scene.inner_cart_config
       cfg_contact_offset_inner cfg_connector_contact_offset
       Vector2.x Vector2.y].
  repeat match goal with
         | |- _ /\ _ => split
         end;
    try solve [reflexivity | assumption | tauto | lra
               | unfold dx; lra
               | apply vector_eq; cbn [Vector2.x Vector2.y]; unfold dx; lra
               | match goal with
                 | |- RecursiveConvolution.calculate_output fm ?e _ = _ =>
                     replace e with dx by (unfold dx; lra); exact Hrun
                 end].
  apply vector_eq;
    cbn [Vector2.add Vector2.sub Vector2.scale Vector2.x Vector2.y]; lra.
Qed.

(** The world the module creates before the loop. *)
Lemma start_returns (fm : floats) :
  exists w0,
    scene.start fm = Return w0 /\
    scene_invariant w0 /\
    scene.running w0 = true /\
    scene.conv w0 = updated 185 500 1500 (1 / 60) RecursiveConvolution.__init__ /\
    Cart.pos (scene.outer_cart w0) = Vector2.mk 400 300 /\
    Cart.pos (scene.inner_cart w0) = Vector2.mk 400 350.
Proof.
  unfold scene.start. rewrite conv0_updated. eexists. split; [reflexivity |].
  split; [| repeat split].
  unfold scene_invariant, same_coefficients.
  cbn [scene.conv scene.spring scene.outer_cart scene.inner_cart
       scene.connector_box scene.outer_cart_velocity].
  repeat match goal with
         | |- _ /\ _ => split
         end;
    try solve [reflexivity | apply cart_init_in_sync
               | cbn; lra].
Qed.

Lemma loop_spec (fm : floats) (inputs : list scene.input) :
  forall w,
    scene_invariant w ->
    exists w',
      scene.loop fm inputs w = Return w' /\
      scene_invariant w' /\
      (inner_leg_fixed w -> inner_leg_fixed w') /\
      (scene.running w = true -> inputs <> [] -> inner_leg_fixed w') /\
      Rabs (Vector2.x (Cart.pos (scene.outer_cart w')) -
            Vector2.x (Cart.pos (scene.outer_cart w)))
      <= 5 / 3 * INR (List.length inputs).
Proof.
  induction inputs as [| i rest IH]; intros w Hinv.
  - exists w. cbn [scene.loop List.length INR].
    split; [reflexivity |]. split; [exact Hinv |]. split; [tauto |].
    split; [intros _ H; now contradiction H |].
    rewrite Rminus_diag, Rabs_R0. lra.
  - cbn [scene.loop]. destruct (scene.running w) eqn:Hrun.
    + destruct (frame_spec fm i w Hinv)
        as (y & w1 & Hf & Hinv1 & Hleg1 & _ & Hx1 & _).
      destruct (IH w1 Hinv1) as (w' & Hl & Hinv' & Hleg' & _ & Hb).
      exists w'. rewrite Hf. cbn [and_then].
      split; [exact Hl |]. split; [exact Hinv' |].
      split; [intros _; now apply Hleg' |].
      split; [intros _ _; now apply Hleg' |].
      pose proof (key_velocity_bound i) as Hk.
      rewrite Hx1 in Hb.
      change (List.length (i :: rest)) with (S (List.length rest)).
      rewrite S_INR.
      replace (Vector2.x (Cart.pos (scene.outer_cart w')) -
               Vector2.x (Cart.pos (scene.outer_cart w)))
        with ((Vector2.x (Cart.pos (scene.outer_cart w')) -
               (Vector2.x (Cart.pos (scene.outer_cart w)) +
                (if scene.K_LEFT i then - scene.cart_speed
                 else if scene.K_RIGHT i then scene.cart_speed else 0) *
                (1 / 60))) +
              (if scene.K_LEFT i then - scene.cart_speed
               else if scene.K_RIGHT i then scene.cart_speed else 0) *
              (1 / 60)) by ring.
      eapply Rle_trans; [apply Rabs_triang |]. lra.
    + exists w. split; [reflexivity |]. split; [exact Hinv |].
      split; [tauto |]. split; [discriminate |].
      rewrite Rminus_diag, Rabs_R0.
      pose proof (pos_INR (List.length (i :: rest))). lra.
Qed.

(** X20.  The module and its main loop never end with an exception, in
    real arithmetic and with the range of a double alike: the
    initialisation of [conv] returns, and for every sequence of key
    states every pass returns; the filter keeps the coefficients of
    [update_parameters(185, 500, 1500, 1/60)] throughout. *)
Theorem scene_never_raises (fm : floats) (inputs : list scene.input) :
  exists w0 w,
    scene.start fm = Return w0 /\
    scene.loop fm inputs w0 = Return w /\
    same_coefficients (scene.conv w)
      (updated 185 500 1500 (1 / 60) RecursiveConvolution.__init__).
Proof.
  destruct (start_returns fm) as (w0 & Hs & Hinv & _).
  destruct (loop_spec fm inputs w0 Hinv) as (w & Hl & Hinv' & _).
  exists w0, w. split; [exact Hs |]. split; [exact Hl |]. apply Hinv'.
Qed.

(** X21.  The carts move on horizontal rails with their connection
    points attached: after any number of passes the outer cart is at
    height 300 and the inner cart at height 350, and every connection
    point of a cart sits at the cart's position plus its configured
    offset. *)
Theorem scene_carts_on_rails (fm : floats) (inputs : list scene.input) :
  exists w0 w,
    scene.start fm = Return w0 /\
    scene.loop fm inputs w0 = Return w /\
    Vector2.y (Cart.pos (scene.outer_cart w)) = 300 /\
    Vector2.y (Cart.pos (scene.inner_cart w)) = 350 /\
    ConnectionPoint.pos (Cart.spring_connection (scene.outer_cart w)) =
      Vector2.add (Cart.pos (scene.outer_cart w)) (Vector2.mk (-200) 50) /\
    ConnectionPoint.pos (Cart.connector_connection (scene.outer_cart w)) =
      Vector2.add (Cart.pos (scene.outer_cart w)) (Vector2.mk 200 20) /\
    ConnectionPoint.pos (Cart.spring_connection (scene.inner_cart w)) =
      Vector2.add (Cart.pos (scene.inner_cart w)) (Vector2.mk (-50) 0) /\
    ConnectionPoint.pos (Cart.connector_connection (scene.inner_cart w)) =
      Vector2.add (Cart.pos (scene.inner_cart w)) (Vector2.mk 50 0).
Proof.
  destruct (start_returns fm) as (w0 & Hs & Hinv & _).
  destruct (loop_spec fm inputs w0 Hinv) as (w & Hl & Hinv' & _).
  exists w0, w. split; [exact Hs |]. split; [exact Hl |].
  destruct Hinv' as (_ & _ & [Hos Hoc] & [His Hic] & Oos & Ooc & Ois & Oic &
                     Hyo & Hyi & _).
  unfold attached in *. rewrite Hos, Hoc, His, Hic, Oos, Ooc, Ois, Oic.
  repeat split; assumption || reflexivity.
Qed.

(** X22.  The coupling of the carts through the filter: after any number
    of passes the last input of [conv] is the outer cart's shift from its
    initial place, [outer_cart.pos.x − 400], and the inner cart sits at
    [400] plus the last output of [conv]. *)
Theorem scene_inner_cart_follows_filter (fm : floats)
    (inputs : list scene.input) :
  exists w0 w,
    scene.start fm = Return w0 /\
    scene.loop fm inputs w0 = Return w /\
    prev_x (scene.conv w) = Vector2.x (Cart.pos (scene.outer_cart w)) - 400 /\
    Vector2.x (Cart.pos (scene.inner_cart w)) = 400 + prev_y1 (scene.conv w).
Proof.
  destruct (start_returns fm) as (w0 & Hs & Hinv & _).
  destruct (loop_spec fm inputs w0 Hinv) as (w & Hl & Hinv' & _).
  exists w0, w. split; [exact Hs |]. split; [exact Hl |].
  unfold scene_invariant in Hinv'. tauto.
Qed.

(** X23.  The inner leg is fixed: after at least one pass of the loop the
    connector box's inner contact is exactly [fixed_leg_length = 15] to
    the right of the inner cart's connector contact and at the same
    height, wherever the carts are. *)
Theorem scene_inner_leg_fixed (fm : floats) (i : scene.input)
    (inputs : list scene.input) :
  exists w0 w,
    scene.start fm = Return w0 /\
    scene.loop fm (i :: inputs) w0 = Return w /\
    Vector2.x (ConnectionPoint.pos
                 (ConnectorBox.inner_connection (scene.connector_box w))) =
      Vector2.x (ConnectionPoint.pos
                   (Cart.connector_connection (scene.inner_cart w))) + 15 /\
    Vector2.y (ConnectionPoint.pos
                 (ConnectorBox.inner_connection (scene.connector_box w))) =
      Vector2.y (ConnectionPoint.pos
                   (Cart.connector_connection (scene.inner_cart w))).
Proof.
  destruct (start_returns fm) as (w0 & Hs & Hinv & Hrun & _).
  destruct (loop_spec fm (i :: inputs) w0 Hinv) as (w & Hl & _ & _ & Hleg & _).
  exists w0, w. split; [exact Hs |]. split; [exact Hl |].
  apply Hleg; [exact Hrun | discriminate].
Qed.

(** X24.  The outer cart moves at most [cart_speed/60 = 5/3] pixels per
    pass: after [n] passes it is within [5/3·n] of its initial place. *)
Theorem scene_outer_cart_bound (fm : floats) (inputs : list scene.input) :
  exists w0 w,
    scene.start fm = Return w0 /\
    scene.loop fm inputs w0 = Return w /\
    Rabs (Vector2.x (Cart.pos (scene.outer_cart w)) - 400)
    <= 5 / 3 * INR (List.length inputs).
Proof.
  destruct (start_returns fm) as (w0 & Hs & Hinv & _ & _ & Hpo & _).
  destruct (loop_spec fm inputs w0 Hinv) as (w & Hl & _ & _ & _ & Hb).
  exists w0, w. split; [exact Hs |]. split; [exact Hl |].
  rewrite Hpo in Hb. exact Hb.
Qed.

Lemma frame_rest (fm : floats) (i : scene.input) (w : scene.world) :
  scene.K_LEFT i = false -> scene.K_RIGHT i = false ->
  scene_invariant w ->
  Cart.pos (scene.outer_cart w) = Vector2.mk 400 300 ->
  Cart.pos (scene.inner_cart w) = Vector2.mk 400 350 ->
  prev_y1 (scene.conv w) = 0 -> prev_y2 (scene.conv w) = 0 ->
  prev_x (scene.conv w) = 0 ->
  exists w',
    scene.frame fm i w = Return w' /\
    scene_invariant w' /\
    Cart.pos (scene.outer_cart w') = Vector2.mk 400 300 /\
    Cart.pos (scene.inner_cart w') = Vector2.mk 400 350 /\
    scene.conv w' = scene.conv w.
Proof.
  intros Hl Hr Hinv Hpo Hpi Hy1 Hy2 Hx.
  destruct (frame_spec fm i w Hinv) as (y & w' & Hf & Hinv' & _ & _ & Hx' &
                                        Hcalc & _).
  rewrite Hl, Hr, Hpo in Hx'. cbn [Vector2.x] in Hx'.
  replace (Vector2.x (Cart.pos (scene.outer_cart w')) - 400) with 0 in Hcalc
    by lra.
  pose proof Hinv as (Hco & _).
  rewrite (calculate_output_at_rest fm (scene.conv w)) in Hcalc;
    [| exact (same_coefficients_ready _ _ Hco (updated_ready _ _ _ _ _))
     | exact (same_coefficients_in_range fm _ _ Hco (conv0_in_range fm))
     | assumption | assumption | assumption].
  injection Hcalc as _ Hconv.
  exists w'. split; [exact Hf |]. split; [exact Hinv' |].
  destruct Hinv' as (_ & _ & _ & _ & _ & _ & _ & _ & Hyo & Hyi & _ & _ & _ &
                     _ & _ & Hcx & _).
  rewrite <- Hconv, Hy1 in Hcx.
  split; [apply vector_eq; cbn [Vector2.x Vector2.y]; lra |].
  split; [apply vector_eq; cbn [Vector2.x Vector2.y]; lra |].
  now symmetry.
Qed.

(** X25.  At rest, the scene stays at rest: as long as neither arrow key
    is pressed, every pass leaves the outer cart at [(400, 300)], the
    inner cart at [(400, 350)], and the filter as the initialisation left
    it. *)
Theorem scene_at_rest (fm : floats) (inputs : list scene.input) :
  Forall (fun i => scene.K_LEFT i = false /\ scene.K_RIGHT i = false) inputs ->
  exists w0 w,
    scene.start fm = Return w0 /\
    scene.loop fm inputs w0 = Return w /\
    Cart.pos (scene.outer_cart w) = Vector2.mk 400 300 /\
    Cart.pos (scene.inner_cart w) = Vector2.mk 400 350 /\
    scene.conv w = scene.conv w0.
Proof.
  intros Hkeys.
  destruct (start_returns fm) as (w0 & Hs & Hinv & _ & Hc0 & Hpo & Hpi).
  exists w0.
  assert (Hgen : forall w,
             scene_invariant w ->
             Cart.pos (scene.outer_cart w) = Vector2.mk 400 300 ->
             Cart.pos (scene.inner_cart w) = Vector2.mk 400 350 ->
             prev_y1 (scene.conv w) = 0 -> prev_y2 (scene.conv w) = 0 ->
             prev_x (scene.conv w) = 0 ->
             exists w',
               scene.loop fm inputs w = Return w' /\
               Cart.pos (scene.outer_cart w') = Vector2.mk 400 300 /\
               Cart.pos (scene.inner_cart w') = Vector2.mk 400 350 /\
               scene.conv w' = scene.conv w).
  { induction Hkeys as [| i rest [Hl Hr] _ IH]; intros w Hi Ho Hn Hy1 Hy2 Hx.
    - exists w. now repeat split.
    - cbn [scene.loop]. destruct (scene.running w).
      + destruct (frame_rest fm i w Hl Hr Hi Ho Hn Hy1 Hy2 Hx)
          as (w1 & Hf & Hi1 & Ho1 & Hn1 & Hc1).
        rewrite Hf. cbn [and_then].
        destruct (IH w1 Hi1 Ho1 Hn1) as (w' & Hl' & Ho' & Hn' & Hc');
          try (rewrite Hc1; assumption).
        exists w'. rewrite Hc', Hc1. now repeat split.
      + exists w. now repeat split. }
  destruct (Hgen w0 Hinv Hpo Hpi) as (w & Hl & Ho & Hn & Hc);
    try (rewrite Hc0; reflexivity).
  exists w. now repeat split.
Qed.

Lemma scene_at_rest_witness :
  exists w0 w,
    scene.start Ideal = Return w0 /\
    scene.loop Ideal
      [scene.mk_input false false false; scene.mk_input false false false] w0 =
    Return w /\
    Cart.pos (scene.outer_cart w) = Vector2.mk 400 300 /\
    Cart.pos (scene.inner_cart w) = Vector2.mk 400 350 /\
    scene.conv w = scene.conv w0.
Proof.
  apply (scene_at_rest Ideal
           [scene.mk_input false false false; scene.mk_input false false false]).
  repeat constructor.
Defined.

Lemma frame_running (fm : floats) (i : scene.input) (w w' : scene.world) :
  scene.frame fm i w = Return w' ->
  scene.running w' = (if scene.QUIT i then false else scene.running w).
Proof.
  unfold scene.frame.
  destruct (cart.calculate_output fm _ (scene.conv w)) as [[y | e] c];
    [| discriminate].
  match goal with
  | |- and_then ?d _ = _ -> _ => destruct d; cbn [and_then]; [| discriminate]
  end.
  intros H. injection H as <-. reflexivity.
Qed.

Lemma loop_not_running (fm : floats) (inputs : list scene.input)
    (w : scene.world) :
  scene.running w = false -> scene.loop fm inputs w = Return w.
Proof.
  intros H. destruct inputs; cbn [scene.loop]; [reflexivity |].
  now rewrite H.
Qed.

(** X26.  A [QUIT] event ends the loop with the pass in which it is
    read: that pass is still carried out in full, and whatever input
    would follow is not read. *)
Theorem scene_quit_ends_loop (fm : floats) (inputs : list scene.input)
    (q : scene.input) (rest : list scene.input) (w : scene.world) :
  scene.QUIT q = true ->
  scene.loop fm (inputs ++ q :: rest) w = scene.loop fm (inputs ++ [q]) w.
Proof.
  intros Hq. revert w. induction inputs as [| i inputs IH]; intros w.
  - cbn [app scene.loop]. destruct (scene.running w); [| reflexivity].
    destruct (scene.frame fm q w) as [w' | e] eqn:Hf; [| reflexivity].
    cbn [and_then]. apply frame_running in Hf. rewrite Hq in Hf.
    now rewrite loop_not_running.
  - cbn [app scene.loop]. destruct (scene.running w); [| reflexivity].
    destruct (scene.frame fm i w) as [w' | e]; [| reflexivity].
    cbn [and_then]. apply IH.
Qed.

Lemma scene_quit_ends_loop_witness :
  exists w0,
    scene.start Ideal = Return w0 /\
    scene.loop Ideal
      ([scene.mk_input false true false] ++
       scene.mk_input true false false :: [scene.mk_input false false true])
      w0 =
    scene.loop Ideal
      ([scene.mk_input false true false] ++ [scene.mk_input true false false])
      w0.
Proof.
  destruct (start_returns Ideal) as (w0 & Hs & _).
  exists w0. split; [exact Hs |].
  apply (scene_quit_ends_loop Ideal [scene.mk_input false true false]
           (scene.mk_input true false false)
           [scene.mk_input false false true] w0).
  reflexivity.
Defined.
